(** * intervalset: a shallow embedding of [intervalset.py]

    The module [intervalset.py] defines closed intervals over an ordered
    value type and canonical sets of such intervals.  This development
    embeds the classes [Interval] and [IntervalSet] for integer
    end points, under the semantics of CPython 3 (the source defines
    [__bool__], the Python 3 truth hook), and states the properties of
    the specification over the embedding.

    Conventions.
    - Python integers are [Z].
    - A Python call either returns, raises, or never returns: see [result].
    - Each method of the source is one definition with the source's name,
      taking [self] as its first argument. *)

From Stdlib Require Import ZArith List Bool Lia Sorting.Sorted Permutation.
Import ListNotations.
Local Open Scope Z_scope.

(** ** Outcomes of a call *)

(** The exceptions that the modelled code can raise. [InternalError] is the
    [Exception("Internal error")] of [IntervalSet._fill_items]; the other
    three are the built-in exceptions of the same name. *)
Inductive exn : Type :=
| TypeError
| ValueError
| AttributeError
| InternalError.

(** [Loops] is the outcome of a [while True] loop that repeats for ever. *)
Inductive result (A : Type) : Type :=
| Ok (a : A)
| Raise (e : exn)
| Loops.

Arguments Ok {A} a.
Arguments Raise {A} e.
Arguments Loops {A}.

Definition bind {A B : Type} (r : result A) (k : A -> result B) : result B :=
  match r with
  | Ok a => k a
  | Raise e => Raise e
  | Loops => Loops
  end.

Declare Scope py_scope.
Delimit Scope py_scope with py.
Notation "x <- r ;; k" := (bind r (fun x => k))
  (at level 61, r at next level, right associativity) : py_scope.
Local Open Scope py_scope.

(** ** Class [Interval] *)

Module Interval.

(** The values that flow where the source expects an interval.

    [_InternalInterval begin end] is an instance of the named tuple; the
    class [Interval] adds only methods to it.

    [EMPTY_INTERVAL] is the object bound to the global of that name.
    Line 138 binds the global to [None]; line 139 rebinds it to the value
    of [Interval(None, None)].  During that call the test of [__new__],

      [EMPTY_INTERVAL is not None and begin is None or end is None or end < begin]

    groups as [(A and B) or C or D]: [A] is false since the global is still
    [None], but [C] ([end is None]) is true, so the call returns the
    current value of the global, [None].  The global is therefore [None]
    from then on: [EMPTY_INTERVAL] is not an instance of [Interval],
    it is falsy, and [Interval(b, e)] with [e < b] returns it. *)
Inductive t : Type :=
| EMPTY_INTERVAL
| _InternalInterval (begin end_ : Z).

(** [isinstance(x, Interval)]. *)
Definition isinstance (x : t) : bool :=
  match x with
  | EMPTY_INTERVAL => false
  | _InternalInterval _ _ => true
  end.

(** [Interval.__new__(cls, begin, end)] once the module is loaded (the global
    [EMPTY_INTERVAL] is [None]).  An argument is [None] or an integer.
    With [end] an integer and [begin = None] the test reaches [end < begin],
    which compares an integer with [None]. *)
Definition __new__ (begin end_ : option Z) : result t :=
  match end_ with
  | None => Ok EMPTY_INTERVAL
  | Some e =>
      match begin with
      | None => Raise TypeError
      | Some b => if e <? b then Ok EMPTY_INTERVAL else Ok (_InternalInterval b e)
      end
  end.

(** [Interval(begin, end)] on two integers: it always returns. *)
Definition new (begin end_ : Z) : t :=
  if end_ <? begin then EMPTY_INTERVAL else _InternalInterval begin end_.

(** The truth value of [x], as tested by [if x] and [not x]: [None] is
    falsy; an instance answers [self is not EMPTY_INTERVAL] ([__bool__]). *)
Definition __bool__ (x : t) : bool :=
  match x with
  | EMPTY_INTERVAL => false
  | _InternalInterval _ _ => true
  end.

(** Attribute access [x.begin] and [x.end]. *)
Definition begin (x : t) : result Z :=
  match x with
  | EMPTY_INTERVAL => Raise AttributeError
  | _InternalInterval b _ => Ok b
  end.

Definition end_ (x : t) : result Z :=
  match x with
  | EMPTY_INTERVAL => Raise AttributeError
  | _InternalInterval _ e => Ok e
  end.

(** [Interval.__and__(self, other)], lines 50-75. *)
Definition __and__ (self other : t) : result t :=
  match self, other with
  | _InternalInterval sb se, _InternalInterval ob oe =>
      if (se <=? ob) || (oe <=? sb) then Ok EMPTY_INTERVAL
      else if (sb >=? ob) && (se <=? oe) then Ok self
      else if (ob >=? sb) && (oe <=? se) then Ok other
      else
        let begin := if sb >? ob then sb else ob in
        let end_ := if se <? oe then se else oe in
        Ok (new begin end_)
  | _, _ => Ok EMPTY_INTERVAL
  end.

(** [Interval.__or__(self, other)], lines 77-98. *)
Definition __or__ (self other : t) : result t :=
  match self, other with
  | _InternalInterval sb se, _InternalInterval ob oe =>
      if (se <? ob) || (oe <? sb) then Raise ValueError
      else if (sb >=? ob) && (se <=? oe) then Ok other
      else if (ob >=? sb) && (oe <=? se) then Ok self
      else
        let begin := if sb >? ob then ob else sb in
        let end_ := if se <? oe then oe else se in
        Ok (new begin end_)
  | _, _ => Raise ValueError
  end.

(** [Interval.__contains__(self, other)], lines 100-107. *)
Definition __contains__ (self other : t) : bool :=
  match self, other with
  | EMPTY_INTERVAL, _ => false
  | _, EMPTY_INTERVAL => false
  | _InternalInterval sb se, _InternalInterval ob oe => (ob >=? sb) && (oe <=? se)
  end.

(** [Interval.is_before_than(self, other)], lines 109-111. *)
Definition is_before_than (self other : t) : bool :=
  match self, other with
  | _InternalInterval _ se, _InternalInterval ob _ => se <? ob
  | _, _ => true
  end.

(** [Interval.is_after_than(self, other)], lines 113-118. *)
Definition is_after_than (self other : t) : bool :=
  match self, other with
  | _InternalInterval sb _, _InternalInterval _ oe => oe <? sb
  | _, _ => false
  end.

(** The comparison [x < y] that [sorted] uses.  The class defines no
    ordering of its own: two instances compare as tuples, first on
    [begin], then on [end]; [None] is ordered against nothing. *)
Definition __lt__ (x y : t) : result bool :=
  match x, y with
  | _InternalInterval xb xe, _InternalInterval yb ye =>
      Ok ((xb <? yb) || ((xb =? yb) && (xe <? ye)))
  | _, _ => Raise TypeError
  end.

(** [x == y]: tuple equality on instances, identity on [None]. *)
Definition __eq__ (x y : t) : bool :=
  match x, y with
  | EMPTY_INTERVAL, EMPTY_INTERVAL => true
  | _InternalInterval xb xe, _InternalInterval yb ye => (xb =? yb) && (xe =? ye)
  | _, _ => false
  end.

(** The operators as the interpreter dispatches them: [x & y], [x | y],
    [y in x] and [x.is_before_than(y)] look the method up on [x], and
    [None] has none of them. *)
Definition op_and (x y : t) : result t :=
  match x with
  | EMPTY_INTERVAL => Raise TypeError
  | _ => __and__ x y
  end.

Definition op_or (x y : t) : result t :=
  match x with
  | EMPTY_INTERVAL => Raise TypeError
  | _ => __or__ x y
  end.

Definition op_in (y x : t) : result bool :=
  match x with
  | EMPTY_INTERVAL => Raise TypeError
  | _ => Ok (__contains__ x y)
  end.

Definition call_is_before_than (x y : t) : result bool :=
  match x with
  | EMPTY_INTERVAL => Raise AttributeError
  | _ => Ok (is_before_than x y)
  end.

(** An instance built by [Interval(begin, end)] has [begin <= end]. *)
Definition valid (x : t) : Prop :=
  match x with
  | EMPTY_INTERVAL => True
  | _InternalInterval b e => b <= e
  end.

End Interval.

Import Interval.

(** ** The built-in [hash] and [sorted] *)

Module Py.

Definition two64 : Z := 2 ^ 64.

(** [hash(n)] of an integer on a 64-bit CPython: the value modulo the
    Mersenne prime [2^61 - 1] with the sign of [n], where [-1] is reserved
    and replaced by [-2]. *)
Definition hash_int (n : Z) : Z :=
  let h := Z.sgn n * (Z.abs n mod (2 ^ 61 - 1)) in
  if h =? -1 then -2 else h.

(** [hash(t)] of a tuple from the hashes of its members (CPython 3.8 and
    later, 64-bit): one xxHash round a member on unsigned 64-bit words. *)
Definition XXPRIME_1 : Z := 11400714785074694791.
Definition XXPRIME_2 : Z := 14029467366897019727.
Definition XXPRIME_5 : Z := 2870177450012600261.

Definition XXROTATE (x : Z) : Z :=
  Z.lor (Z.shiftl x 31 mod two64) (Z.shiftr x 33).

Definition to_signed (x : Z) : Z :=
  if x <? 2 ^ 63 then x else x - two64.

Definition hash_round (acc lane : Z) : Z :=
  let acc := (acc + (lane mod two64) * XXPRIME_2) mod two64 in
  let acc := XXROTATE acc in
  (acc * XXPRIME_1) mod two64.

Definition hash_tuple (lanes : list Z) : Z :=
  let acc := fold_left hash_round lanes XXPRIME_5 in
  let acc :=
    (acc + Z.lxor (Z.of_nat (length lanes)) (Z.lxor XXPRIME_5 3527539)) mod two64 in
  if acc =? two64 - 1 then 1546275796 else to_signed acc.

(** [hash(None)]: a constant since CPython 3.12 (derived from the address
    of [None] before). *)
Definition hash_None : Z := 4238894112.

(** [hash(x)] of an interval value: the tuple hash of [(begin, end)]. *)
Definition hash_interval (x : Interval.t) : Z :=
  match x with
  | EMPTY_INTERVAL => hash_None
  | _InternalInterval b e => hash_tuple [hash_int b; hash_int e]
  end.

(** [sorted(items)].  The built-in sorts with [<] alone.  It is modelled
    as a stable insertion sort: the list it returns is the one any stable
    sort returns, and it raises as soon as a comparison does. *)
Fixpoint insort (x : Interval.t) (l : list Interval.t) : result (list Interval.t) :=
  match l with
  | [] => Ok [x]
  | y :: l' =>
      c <- Interval.__lt__ y x ;;
      if c then (r <- insort x l' ;; Ok (y :: r)) else Ok (x :: l)
  end.

Fixpoint sorted (l : list Interval.t) : result (list Interval.t) :=
  match l with
  | [] => Ok []
  | x :: l' => s <- sorted l' ;; insort x s
  end.

End Py.

(** ** Class [IntervalSet] *)

Module IntervalSet.

(** An instance: the tuple [_items] and the lazily filled hash cache
    [_hash] ([None] until [__hash__] is first called). *)
Record t : Type := mk { _items : list Interval.t; _hash : option Z }.

(** The first loop of [_fill_items], lines 173-176:
    [i1 = None; for i1 in it: if i1: break].  It returns the final [i1]
    and what is left of the iterator. *)
Fixpoint first_nonempty (i1 : Interval.t) (it : list Interval.t)
  : Interval.t * list Interval.t :=
  match it with
  | [] => (i1, [])
  | x :: it' => if Interval.__bool__ x then (x, it') else first_nonempty x it'
  end.

(** The second loop of [_fill_items] and the final append, lines 178-191. *)
Fixpoint unify (i1 : Interval.t) (it : list Interval.t) (_items : list Interval.t)
  : result (list Interval.t) :=
  match it with
  | [] => Ok (if Interval.__bool__ i1 then _items ++ [i1] else _items)
  | i2 :: it' =>
      before <- Interval.call_is_before_than i1 i2 ;;
      if before then unify i2 it' (_items ++ [i1])
      else
        i3 <- Interval.op_and i1 i2 ;;
        overlaps <-
          (if Interval.__bool__ i3 then Ok true
           else e1 <- Interval.end_ i1 ;; b2 <- Interval.begin i2 ;; Ok (e1 =? b2)) ;;
        if overlaps then (u <- Interval.op_or i1 i2 ;; unify u it' _items)
        else Raise InternalError
  end.

(** [IntervalSet._fill_items(self, items)], lines 168-193: the value
    stored in [self._items]. *)
Definition _fill_items (items : list Interval.t) : result (list Interval.t) :=
  match items with
  | [] => Ok []
  | _ :: _ =>
      it <- Py.sorted items ;;
      let '(i1, it) := first_nonempty EMPTY_INTERVAL it in
      unify i1 it []
  end.

(** The constructor [IntervalSet.__init__(self, items)], lines 164-166. *)
Definition __init__ (items : list Interval.t) : result t :=
  l <- _fill_items items ;; Ok (mk l None).

(** [IntervalSet.__hash__(self)], lines 195-198: the hash and the
    instance with its cache filled. *)
Definition __hash__ (self : t) : Z * t :=
  match _hash self with
  | None =>
      let h := Py.hash_tuple (map Py.hash_interval (_items self)) in
      (h, mk (_items self) (Some h))
  | Some h => (h, self)
  end.

(** [IntervalSet.__eq__(self, other)], lines 200-201, on two instances:
    the answer and the two instances after the call. *)
Definition __eq__ (self other : t) : bool * (t * t) :=
  let '(h1, self') := __hash__ self in
  let '(h2, other') := __hash__ other in
  (h1 =? h2, (self', other')).

(** [len(self)] and the truth value of an instance, which Python takes
    from [__len__]. *)
Definition __len__ (self : t) : nat := length (_items self).

Definition __bool__ (self : t) : bool :=
  match _items self with [] => false | _ :: _ => true end.

(** The loop of [__and__], lines 222-237.  [it1] and [it2] are what is
    left of the two iterators; running out of either ends the loop. *)
Fixpoint and_loop (it1 : list Interval.t) (i1 : Interval.t)
    (it2 : list Interval.t) (i2 : Interval.t) (new_items : list Interval.t)
    {struct it1} : result (list Interval.t) :=
  let fix inner (it2 : list Interval.t) (i2 : Interval.t)
      (new_items : list Interval.t) {struct it2} : result (list Interval.t) :=
    b12 <- Interval.call_is_before_than i1 i2 ;;
    if b12 then
      match it1 with
      | [] => Ok new_items
      | i1' :: it1' => and_loop it1' i1' it2 i2 new_items
      end
    else
      b21 <- Interval.call_is_before_than i2 i1 ;;
      if b21 then
        match it2 with
        | [] => Ok new_items
        | i2' :: it2' => inner it2' i2' new_items
        end
      else
        i3 <- Interval.op_and i1 i2 ;;
        let new_items := if Interval.__bool__ i3 then new_items ++ [i3] else new_items in
        e1 <- Interval.end_ i1 ;;
        e2 <- Interval.end_ i2 ;;
        if e1 <? e2 then
          match it1 with
          | [] => Ok new_items
          | i1' :: it1' => and_loop it1' i1' it2 i2 new_items
          end
        else
          match it2 with
          | [] => Ok new_items
          | i2' :: it2' => inner it2' i2' new_items
          end
  in inner it2 i2 new_items.

(** [IntervalSet.__and__(self, other)], lines 209-238. *)
Definition __and__ (self other : t) : result t :=
  match _items self, _items other with
  | [], _ => Ok self
  | _, [] => Ok other
  | i1 :: it1, i2 :: it2 =>
      new_items <- and_loop it1 i1 it2 i2 [] ;;
      __init__ new_items
  end.

(** The loop of [__or__], lines 254-285, with [new_items += list(remaining)]
    done at each exit that sets [remaining]. *)
Fixpoint or_loop (it1 : list Interval.t) (i1 : Interval.t)
    (it2 : list Interval.t) (i2 : Interval.t) (new_items : list Interval.t)
    {struct it1} : result (list Interval.t) :=
  let fix inner (it2 : list Interval.t) (i2 : Interval.t)
      (new_items : list Interval.t) {struct it2} : result (list Interval.t) :=
    b12 <- Interval.call_is_before_than i1 i2 ;;
    if b12 then
      match it1 with
      | [] => Ok ((new_items ++ [i1]) ++ [i2] ++ it2)
      | i1' :: it1' => or_loop it1' i1' it2 i2 (new_items ++ [i1])
      end
    else
      b21 <- Interval.call_is_before_than i2 i1 ;;
      if b21 then
        match it2 with
        | [] => Ok ((new_items ++ [i2]) ++ [i1] ++ it1)
        | i2' :: it2' => inner it2' i2' (new_items ++ [i2])
        end
      else
        u <- Interval.op_or i1 i2 ;;
        match it1 with
        | [] => Ok ((new_items ++ [u]) ++ it2)
        | i1' :: it1' =>
            match it2 with
            | [] => Ok ((new_items ++ [u]) ++ [i1'])
            | i2' :: it2' => or_loop it1' i1' it2' i2' (new_items ++ [u])
            end
        end
  in inner it2 i2 new_items.

(** [IntervalSet.__or__(self, other)], lines 240-286. *)
Definition __or__ (self other : t) : result t :=
  match _items self, _items other with
  | [], _ => Ok other
  | _, [] => Ok self
  | i1 :: it1, i2 :: it2 =>
      new_items <- or_loop it1 i1 it2 i2 [] ;;
      __init__ new_items
  end.

(** The state of the loop of [__sub__]: the part [(b1, e1)] of the
    current interval of [self] that is still to be output, the current
    interval [(b2, e2)] of [other], the two iterators and the output. *)
Record sub_state : Type := mk_sub {
  b1 : Z; e1 : Z; it1 : list Interval.t;
  b2 : Z; e2 : Z; it2 : list Interval.t;
  new_items : list Interval.t
}.

(** One turn of a loop either goes on with a new state or leaves it. *)
Inductive turn : Type :=
| Next (s : sub_state)
| Stop (r : result (list Interval.t)).

(** [b, e = x]: unpacking an interval; [None] cannot be unpacked. *)
Definition unpack (x : Interval.t) : result (Z * Z) :=
  match x with
  | EMPTY_INTERVAL => Raise TypeError
  | _InternalInterval b e => Ok (b, e)
  end.

(** The truth value of an integer. *)
Definition truthy (n : Z) : bool := negb (n =? 0).

(** Lines 343-345, reached with [b1] and [e1] still bound to integers:
    [if b1 and e1 and b1 < e1: new_items.append(Interval(b1, e1))]. *)
Definition add_last (b1 e1 : Z) (new_items : list Interval.t) : list Interval.t :=
  if truthy b1 && truthy e1 && (b1 <? e1)
  then new_items ++ [Interval.new b1 e1]
  else new_items.

(** [b1, e1 = None, None; b1, e1 = next(it1); continue].  When [it1] is
    exhausted the loop is left with [b1 = e1 = None], so that the test of
    line 344 fails and nothing is added. *)
Definition next1 (s : sub_state) (new_items : list Interval.t) : turn :=
  match it1 s with
  | [] => Stop (Ok new_items)
  | x :: it1' =>
      match unpack x with
      | Ok (b, e) => Next (mk_sub b e it1' (b2 s) (e2 s) (it2 s) new_items)
      | Raise err => Stop (Raise err)
      | Loops => Stop Loops
      end
  end.

(** [b2, e2 = next(it2); continue], with [b1] as it is at that point.
    When [it2] is exhausted the loop is left and lines 343-345 run. *)
Definition next2 (s : sub_state) (b1 : Z) : turn :=
  match it2 s with
  | [] => Stop (Ok (add_last b1 (e1 s) (new_items s)))
  | x :: it2' =>
      match unpack x with
      | Ok (b, e) => Next (mk_sub b1 (e1 s) (it1 s) b e it2' (new_items s))
      | Raise err => Stop (Raise err)
      | Loops => Stop Loops
      end
  end.

(** The body of the [while True] of [__sub__], lines 302-338.  When none
    of the seven tests holds the state is unchanged and the loop repeats
    for ever. *)
Definition sub_turn (s : sub_state) : turn :=
  let '(mk_sub b1 e1 _ b2 e2 _ new_items) := s in
  if b1 >=? e1 then next1 s new_items
  else if e1 <=? b2 then next1 s (new_items ++ [Interval.new b1 e1])
  else if e2 <=? b1 then next2 s b1
  else if (b1 <? b2) && (b2 <=? e1) && (e1 <=? e2) then
    next1 s (new_items ++ [Interval.new b1 b2])
  else if (b2 <=? b1) && (b1 <=? e2) && (e2 <? e1) then next2 s e2
  else if (b2 <=? b1) && (b1 <=? e1) && (e1 <=? e2) then next1 s new_items
  else if (b1 <? b2) && (b2 <=? e2) && (e2 <=? e1) then
    Next (mk_sub e2 e1 (it1 s) b2 e2 (it2 s) (new_items ++ [Interval.new b1 b2]))
  else Stop Loops.

(** [n] turns of the loop at most; [None] when the loop is not left by
    then. *)
Fixpoint sub_loop (n : nat) (s : sub_state) : option (result (list Interval.t)) :=
  match n with
  | O => None
  | S n' =>
      match sub_turn s with
      | Stop r => Some r
      | Next s' => sub_loop n' s'
      end
  end.

(** A number of turns within which the loop is left ([sub_loop_fuel]). *)
Definition sub_measure (s : sub_state) : nat :=
  (2 * (length (it1 s) + length (it2 s)) + (if (b1 s <? e2 s)%Z then 1 else 0))%nat.

(** [IntervalSet.__sub__(self, other)], lines 288-347. *)
Definition __sub__ (self other : t) : result t :=
  match _items self, _items other with
  | [], _ => Ok self
  | _, [] => Ok self
  | x1 :: it1, x2 :: it2 =>
      p1 <- unpack x1 ;;
      p2 <- unpack x2 ;;
      let s := mk_sub (fst p1) (snd p1) it1 (fst p2) (snd p2) it2 [] in
      match sub_loop (S (sub_measure s)) s with
      | Some r => new_items <- r ;; __init__ new_items
      | None => Loops
      end
  end.

(** [IntervalSet.__xor__(self, other)], lines 349-351. *)
Definition __xor__ (self other : t) : result t :=
  u <- __or__ self other ;;
  i <- __and__ self other ;;
  __sub__ u i.

(** The loop of the first branch of [__contains__], lines 361-364. *)
Fixpoint contains_scan (items : list Interval.t) (other : Interval.t) : result bool :=
  match items with
  | [] => Ok false
  | item :: items' =>
      c <- Interval.op_in other item ;;
      if c then Ok true else contains_scan items' other
  end.

(** [IntervalSet.__contains__(self, other)], lines 353-367; [other] is an
    interval value or an interval set.

    [EMPTY_INTERVAL] is [None], for which [isinstance(other, Interval)]
    is false: the call takes the second branch, [(self & other) == other].
    There [self & None] returns [self] when [self] is empty (line 212) and
    [None] otherwise (line 214); [self == None] compares [hash(self)] with
    [hash(None)], and [None == None] is true. *)
Definition __contains__ (self : t) (other : Interval.t + t) : result bool :=
  match other with
  | inl i =>
      if Interval.isinstance i then
        (* lines 361-364 *)
        contains_scan (_items self) i
      else if negb (__bool__ self) then
        (* line 213: [self & None] is [self]; then [self == None] *)
        Ok (fst (__hash__ self) =? Py.hash_None)
      else
        (* line 215: [self & None] is [None]; then [None == None] *)
        Ok true
  | inr s =>
      (* line 367 *)
      r <- __and__ self s ;;
      Ok (fst (__eq__ r s))
  end.

(** [IntervalSet.__iter__(self)], lines 203-204: the members in the order
    of [_items]. *)
Definition __iter__ (self : t) : list Interval.t := _items self.

(** The outcome of indexing the tuple [_items]. *)
Inductive lookup : Type :=
| Found (x : Interval.t)
| IndexError.

(** [IntervalSet.__getitem__(self, index)], lines 369-371, on an integer
    index: a negative index counts from the end, and an index outside
    [-len, len) raises [IndexError]. *)
Definition __getitem__ (self : t) (index : Z) : lookup :=
  let n := Z.of_nat (length (_items self)) in
  let i := if index <? 0 then index + n else index in
  if (i <? 0) || (n <=? i) then IndexError
  else
    match nth_error (_items self) (Z.to_nat i) with
    | Some x => Found x
    | None => IndexError
    end.

(** [IntervalSet.min(self)], lines 373-378.  On the empty set the method
    falls off its end and returns [None], the object that
    [EMPTY_INTERVAL] names. *)
Definition min (self : t) : Interval.t :=
  match _items self with
  | [] => EMPTY_INTERVAL
  | x :: _ => x
  end.

(** [IntervalSet.max(self)], lines 380-385: [self._items[-1]], or [None]
    on the empty set. *)
Definition max (self : t) : Interval.t :=
  match _items self with
  | [] => EMPTY_INTERVAL
  | x :: l => last l x
  end.

End IntervalSet.

Import IntervalSet.

(** * Predicates of the specification *)

(** [x] is an instance of the class [Interval]. *)
Definition instance (x : Interval.t) : Prop := Interval.isinstance x = true.

(** The order in which [sorted] arranges instances: tuples [(begin, end)]
    compared first on [begin], then on [end]. *)
Definition lex_le (x y : Interval.t) : Prop :=
  match x, y with
  | _InternalInterval xb xe, _InternalInterval yb ye => xb < yb \/ (xb = yb /\ xe <= ye)
  | _, _ => False
  end.

(** [x] ends strictly before [y] begins. *)
Definition gap (x y : Interval.t) : Prop :=
  match x, y with
  | _InternalInterval _ xe, _InternalInterval yb _ => xe < yb
  | _, _ => False
  end.

(** [x] begins strictly before [y] begins. *)
Definition begin_lt (x y : Interval.t) : Prop :=
  match x, y with
  | _InternalInterval xb _, _InternalInterval yb _ => xb < yb
  | _, _ => False
  end.

(** The three invariants of an interval set, on its sequence of members:
    strictly increasing begins; every member ends strictly before the next
    one begins; the empty value is no member. *)
Definition increasing (l : list Interval.t) : Prop := StronglySorted begin_lt l.

Definition separated (l : list Interval.t) : Prop := LocallySorted gap l.

Definition no_empty (l : list Interval.t) : Prop := ~ In EMPTY_INTERVAL l.

(** The form in which the invariants are carried through the operations:
    members are valid instances, and every member ends strictly before
    every later one begins. *)
Definition canonical (l : list Interval.t) : Prop :=
  Forall instance l /\ Forall valid l /\ StronglySorted gap l.

(** A valid instance: what [Interval(b, e)] returns when [b <= e]. *)
Definition good (x : Interval.t) : Prop :=
  match x with
  | EMPTY_INTERVAL => False
  | _InternalInterval b e => b <= e
  end.

(** The state of the loop of [__sub__] on valid instances. *)
Definition sub_inv (s : IntervalSet.sub_state) : Prop :=
  Forall good (IntervalSet.it1 s) /\ Forall good (IntervalSet.it2 s) /\
  IntervalSet.b2 s <= IntervalSet.e2 s /\ Forall good (IntervalSet.new_items s).

(** The hash cache of an instance is empty or holds the hash of [_items]. *)
Definition coherent (s : IntervalSet.t) : Prop :=
  _hash s = None \/
  _hash s = Some (Py.hash_tuple (map Py.hash_interval (_items s))).

(** The instances that the public operations produce: the constructor on
    values of the factory [Interval], the four set operations on instances
    produced before, and such an instance after [hash] or [==] has filled
    its cache. *)
Inductive reachable : IntervalSet.t -> Prop :=
| reach_init items s :
    Forall valid items -> IntervalSet.__init__ items = Ok s -> reachable s
| reach_and a b s :
    reachable a -> reachable b -> IntervalSet.__and__ a b = Ok s -> reachable s
| reach_or a b s :
    reachable a -> reachable b -> IntervalSet.__or__ a b = Ok s -> reachable s
| reach_sub a b s :
    reachable a -> reachable b -> IntervalSet.__sub__ a b = Ok s -> reachable s
| reach_xor a b s :
    reachable a -> reachable b -> IntervalSet.__xor__ a b = Ok s -> reachable s
| reach_hash a :
    reachable a -> reachable (snd (IntervalSet.__hash__ a)).

(** An instance whose begin is strictly below its end. *)
Definition proper (x : Interval.t) : Prop :=
  match x with
  | EMPTY_INTERVAL => False
  | _InternalInterval b e => b < e
  end.

(** [x] lies completely in one member of [l], in the sense of
    [Interval.__contains__]. *)
Definition inside (l : list Interval.t) (x : Interval.t) : Prop :=
  exists m, In m l /\ Interval.__contains__ m x = true.

(** The value [z] lies between the begin and the end of a member of [l]. *)
Definition covers (l : list Interval.t) (z : Z) : Prop :=
  exists b e, In (_InternalInterval b e) l /\ b <= z <= e.

(** [m] begins strictly after the value [c]. *)
Definition begins_after (c : Z) (m : Interval.t) : Prop :=
  match m with
  | EMPTY_INTERVAL => True
  | _InternalInterval mb _ => c < mb
  end.

(** [m] ends at or before the value [c]. *)
Definition ends_by (c : Z) (m : Interval.t) : Prop :=
  match m with
  | EMPTY_INTERVAL => True
  | _InternalInterval _ me => me <= c
  end.

(** [p] and [m] share no stretch: one ends at or before the begin of
    the other. *)
Definition apart (p m : Interval.t) : Prop :=
  match p, m with
  | _InternalInterval pb pe, _InternalInterval mb me => me <= pb \/ pe <= mb
  | _, _ => True
  end.

(** An output of the loop of [__sub__] for the operands [LA] and [LB]: a
    canonical sequence of pieces, each inside a member of [LA] and apart
    from every member of [LB]. *)
Definition sub_sound (LA LB acc : list Interval.t) : Prop :=
  canonical acc /\ Forall (fun p => inside LA p /\ Forall (apart p) LB) acc.

(** The state of the loop of [__sub__] on the canonical operands [LA] and
    [LB], the members of [LB] having their begin below their end: the
    pending part [(b1, e1)] lies in a member of [LA]; the members of [LB]
    are behind the cursor [b1], current, or still to come; the output is
    sound and ends before the cursor. *)
Definition sub_state_inv (LA LB : list Interval.t) (s : IntervalSet.sub_state) : Prop :=
  IntervalSet.b1 s <= IntervalSet.e1 s
  /\ (exists mb me, In (_InternalInterval mb me) LA
                    /\ mb <= IntervalSet.b1 s /\ IntervalSet.e1 s <= me)
  /\ incl (IntervalSet.it1 s) LA
  /\ Forall good (IntervalSet.it1 s)
  /\ Forall (begins_after (IntervalSet.e1 s)) (IntervalSet.it1 s)
  /\ StronglySorted gap (IntervalSet.it1 s)
  /\ IntervalSet.b2 s < IntervalSet.e2 s
  /\ Forall proper (IntervalSet.it2 s)
  /\ Forall (gap (_InternalInterval (IntervalSet.b2 s) (IntervalSet.e2 s)))
       (IntervalSet.it2 s)
  /\ StronglySorted gap (IntervalSet.it2 s)
  /\ Forall (fun m => ends_by (IntervalSet.b1 s) m
                      \/ m = _InternalInterval (IntervalSet.b2 s) (IntervalSet.e2 s)
                      \/ In m (IntervalSet.it2 s)) LB
  /\ sub_sound LA LB (IntervalSet.new_items s)
  /\ Forall (ends_by (IntervalSet.b1 s - 1)) (IntervalSet.new_items s).

(** * Sample values *)

(** The two sets of the example of the specification,
    [{[1,5], [10,15]}] and [{[3,12]}]. *)
Definition S1 : IntervalSet.t :=
  IntervalSet.mk [_InternalInterval 1 5; _InternalInterval 10 15] None.

Definition S2 : IntervalSet.t :=
  IntervalSet.mk [_InternalInterval 3 12] None.

(** [IntervalSet(Interval(0, 2))], which ends inside the first member of
    [S1], and two sets that differ in one begin only. *)
Definition S3 : IntervalSet.t := IntervalSet.mk [_InternalInterval 0 2] None.

Definition S4 : IntervalSet.t := IntervalSet.mk [_InternalInterval (-1) 5] None.

Definition S5 : IntervalSet.t := IntervalSet.mk [_InternalInterval (-2) 5] None.

(** * Case analysis on integer comparisons *)

Ltac zcases :=
  rewrite ?Z.geb_leb, ?Z.gtb_ltb in *;
  repeat match goal with
  | |- context [Z.ltb ?a ?b] => destruct (Z.ltb_spec a b)
  | |- context [Z.leb ?a ?b] => destruct (Z.leb_spec a b)
  | |- context [Z.eqb ?a ?b] => destruct (Z.eqb_spec a b)
  | H : context [Z.ltb ?a ?b] |- _ => destruct (Z.ltb_spec a b)
  | H : context [Z.leb ?a ?b] |- _ => destruct (Z.leb_spec a b)
  | H : context [Z.eqb ?a ?b] |- _ => destruct (Z.eqb_spec a b)
  end;
  cbn [andb orb negb] in *.

(** * Properties *)

(** ** The models of [hash] and [sorted] agree with CPython on samples *)

Example hash_empty_tuple : Py.hash_tuple [] = 5740354900026072187.
Proof. vm_compute. reflexivity. Qed.

Example hash_pair_1_2 : Py.hash_tuple [Py.hash_int 1; Py.hash_int 2] = -3550055125485641917.
Proof. vm_compute. reflexivity. Qed.

Example hash_minus_one : Py.hash_int (-1) = -2 /\ Py.hash_int (-2) = -2.
Proof. vm_compute. split; reflexivity. Qed.

Example hash_nested :
  Py.hash_tuple [Py.hash_interval (_InternalInterval (-1) 5)] = -3034073981402324225.
Proof. vm_compute. reflexivity. Qed.

Example hash_int_big :
  Py.hash_int (2 ^ 61) = 1 /\ Py.hash_int (- 2 ^ 61) = -2 /\ Py.hash_int (2 ^ 63) = 4.
Proof. vm_compute. repeat split; reflexivity. Qed.

Example sorted_three :
  Py.sorted [_InternalInterval 3 4; _InternalInterval 1 9; _InternalInterval 1 2]
  = Ok [_InternalInterval 1 2; _InternalInterval 1 9; _InternalInterval 3 4].
Proof. reflexivity. Qed.

(** ** Intervals *)

Section IntervalFacts.

Implicit Types a b c x y : Interval.t.

Lemma new_valid (b e : Z) : valid (Interval.new b e).
Proof. unfold Interval.new. zcases; simpl; lia. Qed.

Lemma new_spec (b e : Z) : Interval.__new__ (Some b) (Some e) = Ok (Interval.new b e).
Proof. unfold Interval.__new__, Interval.new. now destruct (e <? b). Qed.

Lemma new_instance (b e : Z) : b <= e -> Interval.new b e = _InternalInterval b e.
Proof. intros H. unfold Interval.new. zcases; [lia | reflexivity]. Qed.

(** The factory returns valid values only. *)
Lemma __new___valid (b e : option Z) x : Interval.__new__ b e = Ok x -> valid x.
Proof.
  destruct b as [b|], e as [e|]; simpl; try discriminate.
  - destruct (Z.ltb_spec e b); intros [= <-]; simpl; lia.
  - intros [= <-]. exact I.
  - intros [= <-]. exact I.
Qed.

(** Intersection never raises, and on instances it is the empty value
    or the interval from the larger begin to the smaller end. *)
Lemma __and___instances (sb se ob oe : Z) :
  sb <= se -> ob <= oe ->
  Interval.__and__ (_InternalInterval sb se) (_InternalInterval ob oe)
  = Ok (if (se <=? ob) || (oe <=? sb) then EMPTY_INTERVAL
        else _InternalInterval (Z.max sb ob) (Z.min se oe)).
Proof.
  intros Hs Ho. unfold Interval.__and__, Interval.new.
  zcases; try lia; repeat f_equal; lia.
Qed.

Lemma __and___total a b : exists c, Interval.__and__ a b = Ok c.
Proof.
  destruct a as [|sb se], b as [|ob oe]; simpl; eauto.
  repeat match goal with |- context [if ?c then _ else _] => destruct c end; eauto.
Qed.

Lemma __and___valid a b c :
  valid a -> valid b -> Interval.__and__ a b = Ok c -> valid c.
Proof.
  destruct a as [|sb se], b as [|ob oe]; simpl; try (intros _ _ [= <-]; exact I).
  intros Hs Ho. rewrite ?Z.geb_leb.
  repeat match goal with |- context [if ?c then _ else _] => destruct c end;
    intros [= <-]; simpl; auto using new_valid.
Qed.

(** Intersection is commutative on valid intervals. *)
Lemma __and___comm a b :
  valid a -> valid b -> Interval.__and__ a b = Interval.__and__ b a.
Proof.
  destruct a as [|sb se], b as [|ob oe]; try reflexivity.
  cbn [valid]. intros Hs Ho. rewrite !__and___instances by assumption.
  zcases; try lia; try reflexivity.
  now rewrite Z.max_comm, Z.min_comm.
Qed.

(** [a & a] is [a] when [a] has a begin strictly below its end. *)
Lemma __and___idem (b e : Z) :
  b < e ->
  Interval.__and__ (_InternalInterval b e) (_InternalInterval b e)
  = Ok (_InternalInterval b e).
Proof. intros H. unfold Interval.__and__. zcases; try lia; reflexivity. Qed.

(** Disjoint or touching intervals, and intersections with the empty
    value, give the empty value. *)
Lemma __and___disjoint (sb se ob oe : Z) :
  se <= ob \/ oe <= sb ->
  Interval.__and__ (_InternalInterval sb se) (_InternalInterval ob oe) = Ok EMPTY_INTERVAL.
Proof. intros H. unfold Interval.__and__. zcases; try lia; reflexivity. Qed.

Lemma __and___empty a :
  Interval.__and__ EMPTY_INTERVAL a = Ok EMPTY_INTERVAL
  /\ Interval.__and__ a EMPTY_INTERVAL = Ok EMPTY_INTERVAL.
Proof. now destruct a. Qed.

(** Union on instances that overlap or touch. *)
Lemma __or___instances (sb se ob oe : Z) :
  sb <= se -> ob <= oe -> ob <= se -> sb <= oe ->
  Interval.__or__ (_InternalInterval sb se) (_InternalInterval ob oe)
  = Ok (_InternalInterval (Z.min sb ob) (Z.max se oe)).
Proof.
  intros Hs Ho H1 H2. unfold Interval.__or__, Interval.new.
  zcases; try lia; repeat f_equal; lia.
Qed.

Lemma __or___raises a b :
  Interval.__or__ a b = Raise ValueError <->
  match a, b with
  | _InternalInterval sb se, _InternalInterval ob oe => se < ob \/ oe < sb
  | _, _ => True
  end.
Proof.
  destruct a as [|sb se], b as [|ob oe]; simpl; try tauto.
  rewrite ?Z.geb_leb.
  destruct (Z.ltb_spec se ob), (Z.ltb_spec oe sb); simpl; try tauto.
  repeat match goal with |- context [if ?c then _ else _] => destruct c end;
    split; (discriminate || lia).
Qed.

Lemma __or___valid a b c :
  valid a -> valid b -> Interval.__or__ a b = Ok c -> valid c.
Proof.
  destruct a as [|sb se], b as [|ob oe]; simpl; try discriminate.
  intros Hs Ho.
  repeat match goal with |- context [if ?c then _ else _] => destruct c end;
    try discriminate; intros [= <-]; simpl; auto using new_valid.
Qed.

(** On an instance the operators reach the methods. *)
Lemma op_instance x y :
  instance x ->
  Interval.op_and x y = Interval.__and__ x y
  /\ Interval.op_or x y = Interval.__or__ x y
  /\ Interval.op_in y x = Ok (Interval.__contains__ x y)
  /\ Interval.call_is_before_than x y = Ok (Interval.is_before_than x y).
Proof. destruct x; [discriminate | now repeat split]. Qed.

(** The asymmetry of the two order helpers on the empty interval. *)
Lemma before_after_empty x :
  Interval.is_before_than EMPTY_INTERVAL x = true
  /\ Interval.is_before_than x EMPTY_INTERVAL = true
  /\ Interval.is_after_than EMPTY_INTERVAL x = false
  /\ Interval.is_after_than x EMPTY_INTERVAL = false.
Proof. destruct x; now repeat split. Qed.

End IntervalFacts.

(** ** Sorting *)

Section Sorting.

Implicit Types x y z : Interval.t.
Implicit Types l s r : list Interval.t.

Lemma lex_le_instance x y : lex_le x y -> instance x /\ instance y.
Proof. destruct x, y; simpl; intros H; try contradiction. now split. Qed.

Lemma lex_le_trans x y z : lex_le x y -> lex_le y z -> lex_le x z.
Proof. destruct x, y, z; simpl; try tauto. lia. Qed.

Lemma __lt___Ok y x c :
  Interval.__lt__ y x = Ok c ->
  if c then lex_le y x else lex_le x y.
Proof.
  destruct y as [|yb ye], x as [|xb xe]; simpl; try discriminate.
  intros [= <-]. zcases; simpl; lia.
Qed.

Lemma __lt___instances x y : instance x -> instance y -> exists c, Interval.__lt__ x y = Ok c.
Proof. destruct x, y; simpl; try discriminate. eauto. Qed.

Lemma __lt___outcome x y : (exists c, Interval.__lt__ x y = Ok c) \/ Interval.__lt__ x y = Raise TypeError.
Proof. destruct x, y; simpl; eauto. Qed.

Lemma insort_Ok x s r :
  Py.insort x s = Ok r -> StronglySorted lex_le s ->
  Permutation (x :: s) r /\ StronglySorted lex_le r.
Proof.
  revert r. induction s as [|y s IH]; intros r; simpl.
  - intros [= <-] _. split; [reflexivity | repeat constructor].
  - destruct (Interval.__lt__ y x) as [c| |] eqn:Hc; simpl; try discriminate.
    apply __lt___Ok in Hc. intros Hr Hs.
    apply StronglySorted_inv in Hs. destruct Hs as [Hs Hy].
    destruct c.
    + destruct (Py.insort x s) as [r'| |] eqn:Hr'; simpl in Hr; try discriminate.
      injection Hr as <-. destruct (IH r' eq_refl Hs) as [Hp Hs'].
      split.
      * rewrite perm_swap. now constructor.
      * constructor; [assumption|].
        eapply Permutation_Forall; [exact Hp|]. now constructor.
    + injection Hr as <-. split; [reflexivity|].
      constructor; [now constructor|].
      constructor; [assumption|].
      eapply Forall_impl; [|exact Hy]. intros z. now apply lex_le_trans.
Qed.

Lemma insort_outcome x s :
  (exists r, Py.insort x s = Ok r) \/ Py.insort x s = Raise TypeError.
Proof.
  induction s as [|y s IH]; simpl; [eauto|].
  destruct (__lt___outcome y x) as [[c ->] | ->]; simpl; [|now right].
  destruct c; [|eauto].
  destruct IH as [[r ->] | ->]; simpl; eauto.
Qed.

Lemma insort_instances x s :
  instance x -> Forall instance s ->
  exists r, Py.insort x s = Ok r /\ Forall instance r.
Proof.
  intros Hx. induction 1 as [|y s Hy Hs IH]; simpl.
  - eauto.
  - destruct (__lt___instances y x Hy Hx) as [c ->]. simpl.
    destruct c.
    + destruct IH as (r & -> & Hr). simpl. eauto.
    + eauto 6.
Qed.

(** What [sorted] returns is a sorted rearrangement of its argument. *)
Lemma sorted_Ok l s :
  Py.sorted l = Ok s -> Permutation l s /\ StronglySorted lex_le s.
Proof.
  revert s. induction l as [|x l IH]; intros s; simpl.
  - intros [= <-]. split; [reflexivity | constructor].
  - destruct (Py.sorted l) as [s'| |]; simpl; try discriminate.
    intros Hs. destruct (IH s' eq_refl) as [Hp Hs'].
    destruct (insort_Ok _ _ _ Hs Hs') as [Hp' Hs''].
    split; [|assumption].
    rewrite <- Hp'. now constructor.
Qed.

(** [sorted] returns or raises [TypeError]. *)
Lemma sorted_outcome l :
  (exists s, Py.sorted l = Ok s) \/ Py.sorted l = Raise TypeError.
Proof.
  induction l as [|x l IH]; simpl; [eauto|].
  destruct IH as [[s ->] | ->]; simpl; [|now right].
  apply insort_outcome.
Qed.

(** It returns on instances. *)
Lemma sorted_instances l :
  Forall instance l -> exists s, Py.sorted l = Ok s /\ Forall instance s.
Proof.
  induction 1 as [|x l Hx Hl IH]; simpl; [eauto|].
  destruct IH as (s & -> & Hs). simpl. now apply insort_instances.
Qed.

(** A sorted list that holds the empty value holds nothing else. *)
Lemma sorted_with_empty s :
  StronglySorted lex_le s -> In EMPTY_INTERVAL s -> s = [EMPTY_INTERVAL].
Proof.
  induction 1 as [|x s Hs IH Hx]; simpl; [contradiction|].
  intros [-> | Hin].
  - destruct s as [|y s]; [reflexivity|].
    apply Forall_inv in Hx. contradiction.
  - rewrite (IH Hin) in Hx. apply Forall_inv in Hx.
    destruct x; contradiction.
Qed.

(** [sorted] raises exactly on the lists of two values or more of which
    one is the empty value: these are the lists on which every sort by
    comparisons has to compare [None] with something. *)
Lemma sorted_raises l :
  Py.sorted l = Raise TypeError <-> (2 <= length l)%nat /\ In EMPTY_INTERVAL l.
Proof.
  split.
  - intros Hr. split.
    + destruct l as [|x [|y l]]; simpl in *; try discriminate. lia.
    + destruct (in_dec (fun x y : Interval.t => ltac:(decide equality; apply Z.eq_dec))
                  EMPTY_INTERVAL l) as [Hin | Hnin]; [assumption|].
      assert (Hall : Forall instance l).
      { apply Forall_forall. intros [|b e] Hx; [contradiction | reflexivity]. }
      destruct (sorted_instances l Hall) as (s & Hs & _). congruence.
  - intros [Hlen Hin].
    destruct (sorted_outcome l) as [[s Hs] | Hr]; [|assumption].
    destruct (sorted_Ok _ _ Hs) as [Hp Hss].
    assert (Hs1 : s = [EMPTY_INTERVAL]).
    { apply sorted_with_empty; [assumption|]. now apply (Permutation_in _ Hp). }
    apply Permutation_length in Hp. subst s. simpl in Hp. lia.
Qed.

End Sorting.

(** ** Normalization: [_fill_items] *)

Section Normalization.

Implicit Types x y z : Interval.t.
Implicit Types l it acc items : list Interval.t.

Lemma canonical_nil : canonical [].
Proof. repeat split; constructor. Qed.

Lemma StronglySorted_snoc {A : Type} (R : A -> A -> Prop) (xs : list A) (a : A) :
  StronglySorted R xs -> Forall (fun a' => R a' a) xs -> StronglySorted R (xs ++ [a]).
Proof.
  induction 1 as [|a' xs Hl IH Hy]; intros Hx; simpl.
  - repeat constructor.
  - apply Forall_cons_iff in Hx. destruct Hx as [Hyx Hx].
    constructor; [now apply IH|].
    apply Forall_app. split; [assumption | now constructor].
Qed.

Lemma canonical_snoc acc x :
  canonical acc -> instance x -> valid x -> Forall (fun y => gap y x) acc ->
  canonical (acc ++ [x]).
Proof.
  intros (Hi & Hv & Hs) Hx Hvx Hg. repeat split.
  - apply Forall_app. split; [assumption | now constructor].
  - apply Forall_app. split; [assumption | now constructor].
  - now apply StronglySorted_snoc.
Qed.

(** The sweep over a sorted list of valid instances: it returns, and what
    it returns is canonical.  [i1] is at most every item still to come in
    the order of the sort; that is what rules the defensive branch out. *)
Lemma unify_spec it : forall i1 acc,
  instance i1 -> valid i1 ->
  Forall (lex_le i1) it -> StronglySorted lex_le it -> Forall valid it ->
  canonical acc -> Forall (fun y => gap y i1) acc ->
  exists l, IntervalSet.unify i1 it acc = Ok l /\ canonical l.
Proof.
  induction it as [|i2 it IH]; intros i1 acc Hi Hv Hle Hs Hvs Hacc Hg.
  - destruct i1 as [|b1 e1]; [discriminate|]. simpl.
    eexists. split; [reflexivity|]. now apply canonical_snoc.
  - apply Forall_cons_iff in Hle. destruct Hle as [Hle12 Hle].
    apply StronglySorted_inv in Hs. destruct Hs as [Hs Hle2].
    apply Forall_cons_iff in Hvs. destruct Hvs as [Hv2 Hvs].
    destruct i1 as [|b1 e1]; [discriminate|].
    destruct i2 as [|b2 e2]; [contradiction|].
    cbn [valid lex_le] in Hv, Hv2, Hle12.
    cbn [IntervalSet.unify Interval.call_is_before_than Interval.is_before_than bind].
    destruct (Z.ltb_spec e1 b2) as [Hlt | Hge].
    + apply IH; try assumption; [now apply canonical_snoc | ].
      apply Forall_app. split.
        -- eapply Forall_impl; [|exact Hg].
           intros [|yb ye]; simpl; [tauto | lia].
        -- constructor; [simpl; lia | constructor].
    + cbn [Interval.op_and]. rewrite __and___instances by assumption.
      cbn [bind].
      assert (Hov :
        (if Interval.__bool__
              (if (e1 <=? b2) || (e2 <=? b1) then EMPTY_INTERVAL
               else _InternalInterval (Z.max b1 b2) (Z.min e1 e2))
         then Ok true
         else e1' <- Interval.end_ (_InternalInterval b1 e1) ;;
              b2' <- Interval.begin (_InternalInterval b2 e2) ;; Ok (e1' =? b2'))
        = Ok true).
      { destruct (Z.leb_spec e1 b2), (Z.leb_spec e2 b1); simpl; try reflexivity;
          f_equal; apply Z.eqb_eq; lia. }
      rewrite Hov. cbn [bind Interval.op_or].
      rewrite __or___instances by lia. cbn [bind].
      apply IH; try assumption; try (simpl; lia).
      * rewrite Forall_forall in Hle, Hle2 |- *. intros z Hz.
        specialize (Hle z Hz). specialize (Hle2 z Hz).
        destruct z as [|zb ze]; simpl in *; [contradiction | lia].
      * eapply Forall_impl; [|exact Hg].
        intros [|yb ye]; simpl; [tauto | lia].
Qed.

Lemma first_nonempty_instance x it :
  instance x -> IntervalSet.first_nonempty EMPTY_INTERVAL (x :: it) = (x, it).
Proof. destruct x; [discriminate | reflexivity]. Qed.

Lemma _fill_items_eq items :
  items = [] \/
  items <> [] /\
  IntervalSet._fill_items items =
    (it <- Py.sorted items ;;
     let '(i1, it) := IntervalSet.first_nonempty EMPTY_INTERVAL it in
     IntervalSet.unify i1 it []).
Proof. destruct items; [now left | right; split; [discriminate | reflexivity]]. Qed.

(** The outcomes of normalization on values of the factory: a canonical
    sequence, or the [TypeError] of [sorted]. *)
Theorem _fill_items_outcome items :
  Forall valid items ->
  (exists l, IntervalSet._fill_items items = Ok l /\ canonical l) \/
  (IntervalSet._fill_items items = Raise TypeError
   /\ (2 <= length items)%nat /\ In EMPTY_INTERVAL items).
Proof.
  intros Hv. destruct (_fill_items_eq items) as [-> | [Hne ->]].
  - left. exists []. split; [reflexivity | apply canonical_nil].
  - destruct (sorted_outcome items) as [[s Hs] | Hr].
    + left. rewrite Hs. cbn [bind].
      destruct (sorted_Ok _ _ Hs) as [Hp Hss].
      assert (Hvs : Forall valid s) by (eapply Permutation_Forall; eassumption).
      destruct s as [|x s].
      { apply Permutation_sym, Permutation_nil in Hp. contradiction. }
      destruct x as [|b e].
      * assert (Hs1 := sorted_with_empty _ Hss (or_introl eq_refl)).
        injection Hs1 as ->. simpl. exists []. split; [reflexivity | apply canonical_nil].
      * rewrite first_nonempty_instance by reflexivity.
        apply StronglySorted_inv in Hss. destruct Hss as [Hss Hle].
        apply Forall_cons_iff in Hvs. destruct Hvs as [Hvx Hvs].
        apply unify_spec; auto using canonical_nil. reflexivity.
    + right. rewrite Hr. split; [reflexivity|]. now apply sorted_raises.
Qed.

Lemma _fill_items_canonical items l :
  Forall valid items -> IntervalSet._fill_items items = Ok l -> canonical l.
Proof.
  intros Hv Hl. destruct (_fill_items_outcome items Hv) as [(l' & Hl' & Hc) | (Hr & _)].
  - congruence.
  - congruence.
Qed.

Lemma _fill_items_instances items :
  Forall valid items -> Forall instance items ->
  exists l, IntervalSet._fill_items items = Ok l /\ canonical l.
Proof.
  intros Hv Hi. destruct (_fill_items_outcome items Hv) as [H | (_ & _ & Hin)].
  - exact H.
  - rewrite Forall_forall in Hi. apply Hi in Hin. discriminate.
Qed.

Lemma __init___canonical items s :
  Forall valid items -> IntervalSet.__init__ items = Ok s ->
  canonical (_items s) /\ _hash s = None.
Proof.
  intros Hv. unfold IntervalSet.__init__.
  destruct (IntervalSet._fill_items items) as [l| |] eqn:Hl; simpl; try discriminate.
  intros [= <-]. simpl. split; [|reflexivity]. eapply _fill_items_canonical; eassumption.
Qed.

Lemma __init___instances items :
  Forall valid items -> Forall instance items ->
  exists s, IntervalSet.__init__ items = Ok s /\ canonical (_items s).
Proof.
  intros Hv Hi. destruct (_fill_items_instances items Hv Hi) as (l & Hl & Hc).
  unfold IntervalSet.__init__. rewrite Hl. simpl. eauto.
Qed.

(** A canonical sequence meets the three invariants as the
    specification words them. *)
Lemma canonical_invariants l :
  canonical l -> increasing l /\ separated l /\ no_empty l.
Proof.
  intros (Hi & Hv & Hs). repeat split.
  - clear Hi. induction Hs as [|x l Hs IH Hx]; [constructor|].
    apply Forall_cons_iff in Hv. destruct Hv as [Hvx Hv].
    constructor; [now apply IH|].
    rewrite Forall_forall in Hx, Hv |- *. intros y Hy.
    specialize (Hx y Hy). specialize (Hv y Hy).
    destruct x, y; simpl in *; try contradiction. lia.
  - apply Sorted_LocallySorted_iff. now apply StronglySorted_Sorted.
  - intros Hin. rewrite Forall_forall in Hi. apply Hi in Hin. discriminate.
Qed.

End Normalization.

(** ** The merge loops of the set operations *)

Section SetOperations.

Implicit Types x y z : Interval.t.
Implicit Types l acc : list Interval.t.

Lemma good_iff x : good x <-> instance x /\ valid x.
Proof. destruct x; simpl; unfold instance; simpl; intuition discriminate. Qed.

Lemma Forall_good l : Forall good l <-> Forall instance l /\ Forall valid l.
Proof.
  rewrite !Forall_forall. split.
  - intros H. split; intros x Hx; now apply good_iff, H.
  - intros [Hi Hv] x Hx. apply good_iff. auto.
Qed.

Lemma canonical_good l : canonical l -> Forall good l.
Proof. intros (Hi & Hv & _). apply Forall_good. now split. Qed.

Lemma Forall_snoc {A : Type} (P : A -> Prop) (xs : list A) (a : A) :
  Forall P xs -> P a -> Forall P (xs ++ [a]).
Proof. intros H Ha. apply Forall_app. split; [assumption | now constructor]. Qed.

(** The loop of [__and__], unfolded once. *)
Lemma and_loop_eq it1 i1 it2 i2 new_items :
  IntervalSet.and_loop it1 i1 it2 i2 new_items =
  (b12 <- Interval.call_is_before_than i1 i2 ;;
   if b12 then
     match it1 with
     | [] => Ok new_items
     | i1' :: it1' => IntervalSet.and_loop it1' i1' it2 i2 new_items
     end
   else
     b21 <- Interval.call_is_before_than i2 i1 ;;
     if b21 then
       match it2 with
       | [] => Ok new_items
       | i2' :: it2' => IntervalSet.and_loop it1 i1 it2' i2' new_items
       end
     else
       i3 <- Interval.op_and i1 i2 ;;
       let new_items := if Interval.__bool__ i3 then new_items ++ [i3] else new_items in
       e1 <- Interval.end_ i1 ;;
       e2 <- Interval.end_ i2 ;;
       if e1 <? e2 then
         match it1 with
         | [] => Ok new_items
         | i1' :: it1' => IntervalSet.and_loop it1' i1' it2 i2 new_items
         end
       else
         match it2 with
         | [] => Ok new_items
         | i2' :: it2' => IntervalSet.and_loop it1 i1 it2' i2' new_items
         end).
Proof. destruct it1; destruct it2; reflexivity. Qed.

(** On valid instances the loop of [__and__] returns valid instances. *)
Lemma and_loop_good it1 : forall i1 it2 i2 acc,
  good i1 -> Forall good it1 -> good i2 -> Forall good it2 -> Forall good acc ->
  exists l, IntervalSet.and_loop it1 i1 it2 i2 acc = Ok l /\ Forall good l.
Proof.
  induction it1 as [|i1' it1 IH1]; intros i1 it2; induction it2 as [|i2' it2 IH2];
    intros i2 acc H1 Hit1 H2 Hit2 Hacc;
    destruct i1 as [|b1 e1]; try contradiction;
    destruct i2 as [|b2 e2]; try contradiction;
    cbn [good] in H1, H2;
    rewrite and_loop_eq;
    cbn [Interval.call_is_before_than Interval.is_before_than bind
         Interval.op_and Interval.end_];
    rewrite __and___instances by assumption; cbn [bind];
    try (apply Forall_cons_iff in Hit1; destruct Hit1 as [H1' Hit1]);
    try (apply Forall_cons_iff in Hit2; destruct Hit2 as [H2' Hit2]);
    destruct (Z.ltb_spec e1 b2); cbn [bind]; eauto;
    destruct (Z.ltb_spec e2 b1); cbn [bind]; eauto;
    (assert (Hacc' : Forall good
       (if Interval.__bool__
             (if (e1 <=? b2) || (e2 <=? b1) then EMPTY_INTERVAL
              else _InternalInterval (Z.max b1 b2) (Z.min e1 e2))
        then acc ++ [if (e1 <=? b2) || (e2 <=? b1) then EMPTY_INTERVAL
                     else _InternalInterval (Z.max b1 b2) (Z.min e1 e2)]
        else acc))
      by (destruct (Z.leb_spec e1 b2), (Z.leb_spec e2 b1); simpl; try assumption;
          apply Forall_snoc; [assumption | simpl; lia]));
    destruct (Z.ltb_spec e1 e2); eauto.
Qed.

(** The loop of [__or__], unfolded once. *)
Lemma or_loop_eq it1 i1 it2 i2 new_items :
  IntervalSet.or_loop it1 i1 it2 i2 new_items =
  (b12 <- Interval.call_is_before_than i1 i2 ;;
   if b12 then
     match it1 with
     | [] => Ok ((new_items ++ [i1]) ++ [i2] ++ it2)
     | i1' :: it1' => IntervalSet.or_loop it1' i1' it2 i2 (new_items ++ [i1])
     end
   else
     b21 <- Interval.call_is_before_than i2 i1 ;;
     if b21 then
       match it2 with
       | [] => Ok ((new_items ++ [i2]) ++ [i1] ++ it1)
       | i2' :: it2' => IntervalSet.or_loop it1 i1 it2' i2' (new_items ++ [i2])
       end
     else
       u <- Interval.op_or i1 i2 ;;
       match it1 with
       | [] => Ok ((new_items ++ [u]) ++ it2)
       | i1' :: it1' =>
           match it2 with
           | [] => Ok ((new_items ++ [u]) ++ [i1'])
           | i2' :: it2' => IntervalSet.or_loop it1' i1' it2' i2' (new_items ++ [u])
           end
       end).
Proof. destruct it1; destruct it2; reflexivity. Qed.

(** On valid instances the loop of [__or__] returns valid instances. *)
Lemma or_loop_good it1 : forall i1 it2 i2 acc,
  good i1 -> Forall good it1 -> good i2 -> Forall good it2 -> Forall good acc ->
  exists l, IntervalSet.or_loop it1 i1 it2 i2 acc = Ok l /\ Forall good l.
Proof.
  induction it1 as [|i1' it1 IH1]; intros i1 it2; induction it2 as [|i2' it2 IH2];
    intros i2 acc H1 Hit1 H2 Hit2 Hacc;
    assert (H1g := H1); assert (H2g := H2);
    destruct i1 as [|b1 e1]; try contradiction;
    destruct i2 as [|b2 e2]; try contradiction;
    cbn [good] in H1, H2;
    rewrite or_loop_eq;
    cbn [Interval.call_is_before_than Interval.is_before_than bind Interval.op_or];
    assert (Hit1g := Hit1); assert (Hit2g := Hit2);
    try (apply Forall_cons_iff in Hit1; destruct Hit1 as [H1' Hit1]);
    try (apply Forall_cons_iff in Hit2; destruct Hit2 as [H2' Hit2]);
    (destruct (Z.ltb_spec e1 b2); cbn [bind];
     [ first [ apply IH1; auto using Forall_snoc
             | eexists; split; [reflexivity|];
               repeat (apply Forall_app; split); auto ] | ]);
    (destruct (Z.ltb_spec e2 b1); cbn [bind];
     [ first [ apply IH2; auto using Forall_snoc
             | eexists; split; [reflexivity|];
               repeat (apply Forall_app; split); auto ] | ]);
    rewrite __or___instances by assumption; cbn [bind];
    assert (Hu : good (_InternalInterval (Z.min b1 b2) (Z.max e1 e2))) by (simpl; lia);
    first [ apply IH1; auto using Forall_snoc
          | eexists; split; [reflexivity|];
            repeat (apply Forall_app; split); auto ].
Qed.

End SetOperations.

(** ** The loop of the difference *)

Section Difference.

(** Every turn that goes on lowers [sub_measure]: an iterator advances,
    or [b1] moves up to [e2] while [b1 < e2]. *)
Lemma next1_measure s acc s' :
  IntervalSet.next1 s acc = Next s' ->
  (IntervalSet.sub_measure s' < IntervalSet.sub_measure s)%nat.
Proof.
  unfold IntervalSet.next1, IntervalSet.sub_measure.
  destruct (IntervalSet.it1 s) as [|[|b e] it1']; simpl; try discriminate.
  intros [= <-]. simpl.
  destruct (b <? IntervalSet.e2 s), (IntervalSet.b1 s <? IntervalSet.e2 s); lia.
Qed.

Lemma next2_measure s b s' :
  IntervalSet.next2 s b = Next s' ->
  (IntervalSet.sub_measure s' < IntervalSet.sub_measure s)%nat.
Proof.
  unfold IntervalSet.next2, IntervalSet.sub_measure.
  destruct (IntervalSet.it2 s) as [|[|b' e'] it2']; simpl; try discriminate.
  intros [= <-]. simpl.
  destruct (b <? e'), (IntervalSet.b1 s <? IntervalSet.e2 s); lia.
Qed.

Lemma sub_turn_measure s s' :
  IntervalSet.sub_turn s = Next s' ->
  (IntervalSet.sub_measure s' < IntervalSet.sub_measure s)%nat.
Proof.
  destruct s as [b1 e1 it1 b2 e2 it2 acc].
  unfold IntervalSet.sub_turn.
  destruct (b1 >=? e1); [apply next1_measure|].
  destruct (e1 <=? b2); [apply next1_measure|].
  destruct (Z.leb_spec e2 b1) as [|Hlt]; [apply next2_measure|].
  destruct ((b1 <? b2) && (b2 <=? e1) && (e1 <=? e2)); [apply next1_measure|].
  destruct ((b2 <=? b1) && (b1 <=? e2) && (e2 <? e1)); [apply next2_measure|].
  destruct ((b2 <=? b1) && (b1 <=? e1) && (e1 <=? e2)); [apply next1_measure|].
  destruct ((b1 <? b2) && (b2 <=? e2) && (e2 <=? e1)); [|discriminate].
  intros [= <-]. unfold IntervalSet.sub_measure. simpl.
  rewrite Z.ltb_irrefl. destruct (Z.ltb_spec b1 e2); lia.
Qed.

(** The loop is left within [sub_measure] turns and one. *)
Lemma sub_loop_fuel n : forall s,
  (IntervalSet.sub_measure s < n)%nat -> IntervalSet.sub_loop n s <> None.
Proof.
  induction n as [|n IH]; intros s Hn; [lia|].
  simpl. destruct (IntervalSet.sub_turn s) as [s'|r] eqn:Ht; [|discriminate].
  apply IH. apply sub_turn_measure in Ht. lia.
Qed.

Lemma add_last_good b1 e1 acc :
  Forall good acc -> Forall good (IntervalSet.add_last b1 e1 acc).
Proof.
  intros H. unfold IntervalSet.add_last.
  destruct (IntervalSet.truthy b1 && IntervalSet.truthy e1); simpl; [|assumption].
  destruct (Z.ltb_spec b1 e1); [|assumption].
  apply Forall_snoc; [assumption|]. rewrite new_instance by lia. simpl. lia.
Qed.

Lemma new_good b e : b <= e -> good (Interval.new b e).
Proof. intros H. rewrite new_instance by assumption. exact H. Qed.

(** On valid instances a turn leaves the loop with valid instances, or
    goes on in such a state: it neither raises nor repeats for ever. *)
Lemma sub_turn_good s :
  sub_inv s ->
  (exists l, IntervalSet.sub_turn s = Stop (Ok l) /\ Forall good l) \/
  (exists s', IntervalSet.sub_turn s = Next s' /\ sub_inv s').
Proof.
  destruct s as [b1 e1 it1 b2 e2 it2 acc]. intros Hs.
  unfold sub_inv in Hs.
  cbn [IntervalSet.b1 IntervalSet.e1 IntervalSet.it1 IntervalSet.b2
       IntervalSet.e2 IntervalSet.it2 IntervalSet.new_items] in Hs.
  destruct Hs as (H1 & H2 & Hb & Hacc).
  assert (Hn1 : forall acc', Forall good acc' ->
    (exists l, IntervalSet.next1 (IntervalSet.mk_sub b1 e1 it1 b2 e2 it2 acc) acc'
               = Stop (Ok l) /\ Forall good l) \/
    (exists s', IntervalSet.next1 (IntervalSet.mk_sub b1 e1 it1 b2 e2 it2 acc) acc'
                = Next s' /\ sub_inv s')).
  { intros acc' Hacc'. unfold IntervalSet.next1. cbn [IntervalSet.it1].
    destruct H1 as [|[|b e] it1 Hx H1]; [left; eauto | contradiction |].
    right. eexists. split; [reflexivity|]. repeat split; assumption. }
  assert (Hn2 : forall b1', 
    (exists l, IntervalSet.next2 (IntervalSet.mk_sub b1 e1 it1 b2 e2 it2 acc) b1'
               = Stop (Ok l) /\ Forall good l) \/
    (exists s', IntervalSet.next2 (IntervalSet.mk_sub b1 e1 it1 b2 e2 it2 acc) b1'
                = Next s' /\ sub_inv s')).
  { intros b1'. unfold IntervalSet.next2.
    cbn [IntervalSet.it2 IntervalSet.it1 IntervalSet.e1 IntervalSet.new_items].
    destruct H2 as [|[|b e] it2 Hx H2]; [|contradiction|].
    - left. eexists. split; [reflexivity|]. now apply add_last_good.
    - right. eexists. split; [reflexivity|]. repeat split; assumption. }
  unfold IntervalSet.sub_turn.
  rewrite Z.geb_leb.
  destruct (Z.leb_spec e1 b1); [exact (Hn1 acc Hacc)|].
  assert (Hnew : forall b e, b < e -> Forall good (acc ++ [Interval.new b e]))
    by (intros b e Hbe; apply Forall_snoc, new_good; [assumption | lia]).
  destruct (Z.leb_spec e1 b2); [apply (Hn1 _ (Hnew b1 e1 ltac:(lia)))|].
  destruct (Z.leb_spec e2 b1); [exact (Hn2 b1)|].
  destruct (Z.ltb_spec b1 b2) as [Hb12 | Hb12].
  - destruct (Z.leb_spec b2 e1); [|lia].
    destruct (Z.leb_spec e1 e2); cbn [andb].
    + apply (Hn1 _ (Hnew b1 b2 Hb12)).
    + destruct (Z.leb_spec b2 b1); [lia|]. cbn [andb].
      destruct (Z.leb_spec b2 e2); [|lia].
      destruct (Z.leb_spec e2 e1); [|lia]. cbn [andb].
      right. eexists. split; [reflexivity|].
      repeat split; cbn; auto.
  - cbn [andb].
    destruct (Z.leb_spec b2 b1); [|lia].
    destruct (Z.leb_spec b1 e2); [|lia]. cbn [andb].
    destruct (Z.ltb_spec e2 e1); [exact (Hn2 e2)|].
    destruct (Z.leb_spec b1 e1); [|lia].
    destruct (Z.leb_spec e1 e2); [|lia]. cbn [andb].
    exact (Hn1 acc Hacc).
Qed.

Lemma sub_loop_good n : forall s,
  sub_inv s -> (IntervalSet.sub_measure s < n)%nat ->
  exists l, IntervalSet.sub_loop n s = Some (Ok l) /\ Forall good l.
Proof.
  induction n as [|n IH]; intros s Hs Hn; [lia|].
  simpl. destruct (sub_turn_good s Hs) as [(l & -> & Hl) | (s' & Ht & Hs')].
  - eauto.
  - rewrite Ht. apply IH; [assumption|]. apply sub_turn_measure in Ht. lia.
Qed.

End Difference.

(** ** The set operations on canonical operands *)

Section Closure.

Implicit Types a b s : IntervalSet.t.

Lemma __init___good l :
  Forall good l -> exists s, IntervalSet.__init__ l = Ok s /\ canonical (_items s).
Proof.
  intros H. apply Forall_good in H. destruct H as [Hi Hv].
  now apply __init___instances.
Qed.

(** Intersection returns, and returns a canonical set. *)
Lemma __and___spec a b :
  canonical (_items a) -> canonical (_items b) ->
  exists s, IntervalSet.__and__ a b = Ok s /\ canonical (_items s).
Proof.
  intros Ha Hb. unfold IntervalSet.__and__.
  destruct (_items a) as [|i1 it1] eqn:Ea; [exists a; now rewrite Ea|].
  destruct (_items b) as [|i2 it2] eqn:Eb; [exists b; now rewrite Eb|].
  apply canonical_good in Ha, Hb.
  apply Forall_cons_iff in Ha, Hb. destruct Ha as [H1 Hit1], Hb as [H2 Hit2].
  destruct (and_loop_good it1 i1 it2 i2 [] H1 Hit1 H2 Hit2 (Forall_nil _))
    as (l & -> & Hl).
  cbn [bind]. now apply __init___good.
Qed.

(** Union returns, and returns a canonical set. *)
Lemma __or___spec a b :
  canonical (_items a) -> canonical (_items b) ->
  exists s, IntervalSet.__or__ a b = Ok s /\ canonical (_items s).
Proof.
  intros Ha Hb. unfold IntervalSet.__or__.
  destruct (_items a) as [|i1 it1] eqn:Ea; [exists b; now split|].
  destruct (_items b) as [|i2 it2] eqn:Eb; [exists a; now rewrite Ea|].
  apply canonical_good in Ha, Hb.
  apply Forall_cons_iff in Ha, Hb. destruct Ha as [H1 Hit1], Hb as [H2 Hit2].
  destruct (or_loop_good it1 i1 it2 i2 [] H1 Hit1 H2 Hit2 (Forall_nil _))
    as (l & -> & Hl).
  cbn [bind]. now apply __init___good.
Qed.

(** Difference returns, and returns a canonical set. *)
Lemma __sub___spec a b :
  canonical (_items a) -> canonical (_items b) ->
  exists s, IntervalSet.__sub__ a b = Ok s /\ canonical (_items s).
Proof.
  intros Ha Hb. unfold IntervalSet.__sub__.
  destruct (_items a) as [|i1 it1] eqn:Ea; [exists a; now rewrite Ea|].
  destruct (_items b) as [|i2 it2] eqn:Eb; [exists a; now rewrite Ea|].
  apply canonical_good in Ha, Hb.
  apply Forall_cons_iff in Ha, Hb. destruct Ha as [H1 Hit1], Hb as [H2 Hit2].
  destruct i1 as [|b1 e1]; [contradiction|].
  destruct i2 as [|b2 e2]; [contradiction|].
  cbn [IntervalSet.unpack bind fst snd].
  destruct (sub_loop_good
              (S (IntervalSet.sub_measure (IntervalSet.mk_sub b1 e1 it1 b2 e2 it2 [])))
              (IntervalSet.mk_sub b1 e1 it1 b2 e2 it2 []))
    as (l & -> & Hl).
  - repeat split; cbn; auto.
  - lia.
  - cbn [bind]. now apply __init___good.
Qed.

(** Symmetric difference returns, and returns a canonical set. *)
Lemma __xor___spec a b :
  canonical (_items a) -> canonical (_items b) ->
  exists s, IntervalSet.__xor__ a b = Ok s /\ canonical (_items s).
Proof.
  intros Ha Hb. unfold IntervalSet.__xor__.
  destruct (__or___spec a b Ha Hb) as (u & -> & Hu).
  destruct (__and___spec a b Ha Hb) as (i & -> & Hi).
  cbn [bind]. now apply __sub___spec.
Qed.

(** Every reachable instance holds a canonical sequence. *)
Lemma reachable_canonical s : reachable s -> canonical (_items s).
Proof.
  induction 1 as [items s Hv Hs | a b s _ IHa _ IHb Hs | a b s _ IHa _ IHb Hs
                 | a b s _ IHa _ IHb Hs | a b s _ IHa _ IHb Hs | a _ IHa];
    [| | | | | unfold IntervalSet.__hash__; now destruct (_hash a)].
  - now apply (__init___canonical items).
  - destruct (__and___spec a b IHa IHb) as (s' & Hs' & Hc). congruence.
  - destruct (__or___spec a b IHa IHb) as (s' & Hs' & Hc). congruence.
  - destruct (__sub___spec a b IHa IHb) as (s' & Hs' & Hc). congruence.
  - destruct (__xor___spec a b IHa IHb) as (s' & Hs' & Hc). congruence.
Qed.

(** On reachable operands each of the four set operations returns. *)
Lemma reachable_total a b :
  reachable a -> reachable b ->
  (exists s, IntervalSet.__and__ a b = Ok s) /\
  (exists s, IntervalSet.__or__ a b = Ok s) /\
  (exists s, IntervalSet.__sub__ a b = Ok s) /\
  (exists s, IntervalSet.__xor__ a b = Ok s).
Proof.
  intros Ha Hb. apply reachable_canonical in Ha, Hb.
  destruct (__and___spec a b Ha Hb) as (s1 & H1 & _).
  destruct (__or___spec a b Ha Hb) as (s2 & H2 & _).
  destruct (__sub___spec a b Ha Hb) as (s3 & H3 & _).
  destruct (__xor___spec a b Ha Hb) as (s4 & H4 & _).
  eauto 10.
Qed.

(** With a coherent cache [__hash__] answers the hash of [_items], and
    leaves a coherent instance with the same members. *)
Lemma __hash___coherent s :
  coherent s ->
  fst (IntervalSet.__hash__ s) = Py.hash_tuple (map Py.hash_interval (_items s))
  /\ coherent (snd (IntervalSet.__hash__ s))
  /\ _items (snd (IntervalSet.__hash__ s)) = _items s.
Proof.
  unfold coherent, IntervalSet.__hash__. intros [H | H]; rewrite H; simpl.
  - repeat split. now right.
  - repeat split. now right.
Qed.

Lemma __init___fresh items s : IntervalSet.__init__ items = Ok s -> _hash s = None.
Proof.
  unfold IntervalSet.__init__.
  destruct (IntervalSet._fill_items items); simpl; try discriminate.
  now intros [= <-].
Qed.

(** What a set operation returns is an operand or a fresh instance. *)
Lemma __and___result a b s :
  IntervalSet.__and__ a b = Ok s -> s = a \/ s = b \/ _hash s = None.
Proof.
  unfold IntervalSet.__and__.
  destruct (_items a) as [|i1 it1]; [intros [= <-]; auto|].
  destruct (_items b) as [|i2 it2]; [intros [= <-]; auto|].
  destruct (IntervalSet.and_loop it1 i1 it2 i2 []); simpl; try discriminate.
  intros H. right. right. now apply __init___fresh in H.
Qed.

Lemma __or___result a b s :
  IntervalSet.__or__ a b = Ok s -> s = a \/ s = b \/ _hash s = None.
Proof.
  unfold IntervalSet.__or__.
  destruct (_items a) as [|i1 it1]; [intros [= <-]; auto|].
  destruct (_items b) as [|i2 it2]; [intros [= <-]; auto|].
  destruct (IntervalSet.or_loop it1 i1 it2 i2 []); simpl; try discriminate.
  intros H. right. right. now apply __init___fresh in H.
Qed.

Lemma __sub___result a b s :
  IntervalSet.__sub__ a b = Ok s -> s = a \/ _hash s = None.
Proof.
  unfold IntervalSet.__sub__.
  destruct (_items a) as [|i1 it1]; [intros [= <-]; auto|].
  destruct (_items b) as [|i2 it2]; [intros [= <-]; auto|].
  destruct (IntervalSet.unpack i1) as [p1| |]; cbn [bind]; try discriminate.
  destruct (IntervalSet.unpack i2) as [p2| |]; cbn [bind]; try discriminate.
  match goal with
  | |- context [IntervalSet.sub_loop ?n ?st] =>
      destruct (IntervalSet.sub_loop n st) as [[l| |]|]
  end; simpl; try discriminate.
  intros H. right. now apply __init___fresh in H.
Qed.

(** The cache of every reachable instance is coherent. *)
Lemma reachable_coherent s : reachable s -> coherent s.
Proof.
  induction 1 as [items s Hv Hs | a b s _ IHa _ IHb Hs | a b s _ IHa _ IHb Hs
                 | a b s _ IHa _ IHb Hs | a b s _ IHa _ IHb Hs | a _ IHa].
  - left. now apply __init___fresh in Hs.
  - apply __and___result in Hs. destruct Hs as [-> | [-> | Hs]]; auto. now left.
  - apply __or___result in Hs. destruct Hs as [-> | [-> | Hs]]; auto. now left.
  - apply __sub___result in Hs. destruct Hs as [-> | Hs]; auto. now left.
  - unfold IntervalSet.__xor__ in Hs.
    destruct (IntervalSet.__or__ a b) as [u| |] eqn:Hu; simpl in Hs; try discriminate.
    destruct (IntervalSet.__and__ a b) as [i| |] eqn:Hi; simpl in Hs; try discriminate.
    apply __sub___result in Hs. destruct Hs as [-> | Hs]; [|now left].
    apply __or___result in Hu. destruct Hu as [-> | [-> | Hu]]; auto. now left.
  - now apply __hash___coherent.
Qed.

End Closure.

(** ** The sample values are sets that the constructor builds *)

Example S1_built :
  IntervalSet.__init__ [_InternalInterval 10 15; _InternalInterval 1 5] = Ok S1.
Proof. reflexivity. Qed.

Example S2_built : IntervalSet.__init__ [_InternalInterval 3 12] = Ok S2.
Proof. reflexivity. Qed.

Example S3_built : IntervalSet.__init__ [_InternalInterval 0 2] = Ok S3.
Proof. reflexivity. Qed.

Example S4_built : IntervalSet.__init__ [_InternalInterval (-1) 5] = Ok S4.
Proof. reflexivity. Qed.

Example S5_built : IntervalSet.__init__ [_InternalInterval (-2) 5] = Ok S5.
Proof. reflexivity. Qed.

(** The example of the specification. *)
Example spec_example :
  IntervalSet.__and__ S1 S2
    = Ok (IntervalSet.mk [_InternalInterval 3 5; _InternalInterval 10 12] None)
  /\ IntervalSet.__or__ S1 S2 = Ok (IntervalSet.mk [_InternalInterval 1 15] None)
  /\ IntervalSet.__sub__ S1 S2
    = Ok (IntervalSet.mk [_InternalInterval 1 3; _InternalInterval 12 15] None)
  /\ IntervalSet.__xor__ S1 S2
    = Ok (IntervalSet.mk
            [_InternalInterval 1 3; _InternalInterval 5 10; _InternalInterval 12 15] None).
Proof. repeat split; reflexivity. Qed.

(** Normalization merges overlapping and touching items, also those with
    equal end points. *)
Example normalization_example :
  IntervalSet.__init__
    [_InternalInterval 5 5; _InternalInterval 5 10; _InternalInterval 5 5;
     _InternalInterval 0 3; _InternalInterval 3 5; _InternalInterval 20 21]
  = Ok (IntervalSet.mk [_InternalInterval 0 10; _InternalInterval 20 21] None).
Proof. reflexivity. Qed.

(** ** The claims *)

(** *** C1: the difference and the rest of [self] *)

(** When [other] is exhausted while a part [(b1, e1)] of [self] is pending,
    the loop is left with [add_last] alone, whatever is left in [it1]. *)
Lemma sub_turn_other_exhausted (s : IntervalSet.sub_state) :
  IntervalSet.it2 s = [] ->
  IntervalSet.b1 s < IntervalSet.e1 s ->
  IntervalSet.b2 s < IntervalSet.e1 s ->
  IntervalSet.e2 s <= IntervalSet.b1 s ->
  IntervalSet.sub_turn s =
  Stop (Ok (IntervalSet.add_last (IntervalSet.b1 s) (IntervalSet.e1 s)
              (IntervalSet.new_items s))).
Proof.
  destruct s as [b1 e1 it1 b2 e2 it2 acc]. simpl. intros -> H1 H2 H3.
  rewrite Z.geb_leb.
  destruct (Z.leb_spec e1 b1); [lia|].
  destruct (Z.leb_spec e1 b2); [lia|].
  destruct (Z.leb_spec e2 b1); [reflexivity | lia].
Qed.

(** C1. The specification says that [A - B], once either operand is exhausted,
    outputs the pending part [(cursor, e1)] of [A] and every interval of [A]
    not yet visited.  The code does not: with [A = {[1,5], [10,15]}] and
    [B = {[0,2]}] the result is [{[2,5]}], and [[10,15]] is lost; with
    [A = {[0,5]}] and [B = {[-3,-1]}] the result is the empty set, since the
    pending part is tested by the truth value of its begin [0]. *)
Theorem C1_sub_loses_rest_of_self :
  IntervalSet.__sub__ S1 S3 = Ok (IntervalSet.mk [_InternalInterval 2 5] None)
  /\ IntervalSet.__sub__ (IntervalSet.mk [_InternalInterval 0 5] None)
       (IntervalSet.mk [_InternalInterval (-3) (-1)] None)
     = Ok (IntervalSet.mk [] None).
Proof. split; reflexivity. Qed.

(** *** C2: construction from a collection that holds the empty value *)

(** The constructor raises on every collection of two values or more of
    which one is the empty value. *)
Lemma __init___with_empty (items : list Interval.t) :
  (2 <= length items)%nat -> In EMPTY_INTERVAL items ->
  IntervalSet.__init__ items = Raise TypeError.
Proof.
  intros Hlen Hin. unfold IntervalSet.__init__.
  destruct (_fill_items_eq items) as [-> | [_ ->]]; [contradiction|].
  assert (Hr : Py.sorted items = Raise TypeError) by now apply sorted_raises.
  now rewrite Hr.
Qed.

(** C2. The specification says that the constructor succeeds on every collection
    of intervals and ignores the empty ones.  The code raises [TypeError]
    on [IntervalSet(EMPTY_INTERVAL, Interval(1, 2))]: [sorted] compares
    [None] with a tuple. *)
Theorem C2_init_raises_on_empty_member :
  IntervalSet.__init__ [EMPTY_INTERVAL; _InternalInterval 1 2] = Raise TypeError.
Proof. reflexivity. Qed.

(** *** C3: the order of the empty value *)

(** C3. The specification says that [Empty < x] holds for every non-empty [x] and
    that the comparison does not fail.  In the code the comparison of
    [EMPTY_INTERVAL] with any interval value raises [TypeError], on either
    side. *)
Theorem C3_empty_comparison_raises (x : Interval.t) :
  Interval.__lt__ EMPTY_INTERVAL x = Raise TypeError
  /\ Interval.__lt__ x EMPTY_INTERVAL = Raise TypeError.
Proof. destruct x; split; reflexivity. Qed.

(** *** C4: intervals with equal end points *)

(** An interval [(x, x)] strictly inside [(b, e)] is the intersection of
    the two, and their union is [(b, e)]. *)
Lemma degenerate_inside (x b e : Z) :
  b < x < e ->
  Interval.__and__ (_InternalInterval x x) (_InternalInterval b e)
    = Ok (_InternalInterval x x)
  /\ Interval.__or__ (_InternalInterval x x) (_InternalInterval b e)
    = Ok (_InternalInterval b e).
Proof.
  intros H. unfold Interval.__and__, Interval.__or__.
  zcases; try lia; split; reflexivity.
Qed.

(** C4. The specification says that [Interval(x, x) & b] is the empty interval
    and that [Interval(x, x) | b] raises, for every [b].  In the code
    [Interval(5, 5)] is a truthy instance, [Interval(5, 5) & Interval(0, 10)]
    returns [Interval(5, 5)] and [Interval(5, 5) | Interval(0, 10)] returns
    [Interval(0, 10)]. *)
Theorem C4_degenerate_is_not_empty :
  Interval.__new__ (Some 5) (Some 5) = Ok (_InternalInterval 5 5)
  /\ Interval.__bool__ (_InternalInterval 5 5) = true
  /\ Interval.__and__ (_InternalInterval 5 5) (_InternalInterval 0 10)
     = Ok (_InternalInterval 5 5)
  /\ Interval.__or__ (_InternalInterval 5 5) (_InternalInterval 0 10)
     = Ok (_InternalInterval 0 10).
Proof. repeat split; reflexivity. Qed.

(** *** C5: equality of interval sets *)

(** Two intervals that differ in a begin of [-1] against [-2] have one
    hash, whatever the end: the two integers already have. *)
Lemma hash_collision (e : Z) :
  Py.hash_interval (_InternalInterval (-1) e) = Py.hash_interval (_InternalInterval (-2) e).
Proof. reflexivity. Qed.

(** The collision reaches every pair of one-member sets that differ in a
    begin of [-1] against [-2]: they compare equal. *)
Lemma __eq___collision (e : Z) :
  fst (IntervalSet.__eq__ (IntervalSet.mk [_InternalInterval (-1) e] None)
                          (IntervalSet.mk [_InternalInterval (-2) e] None)) = true.
Proof.
  unfold IntervalSet.__eq__, IntervalSet.__hash__. cbn [_hash _items map fst].
  rewrite (hash_collision e). apply Z.eqb_refl.
Qed.

(** C5. The specification says that two interval sets compare equal if and
    only if their sequences of members are identical.  In the code
    [IntervalSet(Interval(-1, 5)) == IntervalSet(Interval(-2, 5))] is true
    although the two sequences differ: [__eq__] compares [hash(self)] with
    [hash(other)] and never the members, and [hash(-1)] and [hash(-2)] are
    both [-2].  The same comparison decides set containment, so
    [IntervalSet(Interval(-2, 5)) in IntervalSet(Interval(-1, 5))] is true
    as well. *)
Theorem C5_distinct_sets_compare_equal :
  IntervalSet.__init__ [_InternalInterval (-1) 5] = Ok S4
  /\ IntervalSet.__init__ [_InternalInterval (-2) 5] = Ok S5
  /\ _items S4 <> _items S5
  /\ fst (IntervalSet.__eq__ S4 S5) = true
  /\ IntervalSet.__contains__ S4 (inr S5) = Ok true.
Proof.
  split; [reflexivity|]. split; [reflexivity|].
  split; [discriminate|]. split; vm_compute; reflexivity.
Qed.

(** *** C6: the invariants of reachable instances *)

(** C6. Every interval set that the constructor or one of the four set
    operations produces has strictly increasing begins, has each member
    end strictly before the next one begins, and holds no empty interval. *)
Theorem C6_reachable_invariants (s : IntervalSet.t) :
  reachable s ->
  increasing (_items s) /\ separated (_items s) /\ no_empty (_items s).
Proof. intros H. apply canonical_invariants. now apply reachable_canonical. Qed.

Lemma C6_reachable_invariants_witness :
  reachable
    (IntervalSet.mk
       [_InternalInterval 1 3; _InternalInterval 5 10; _InternalInterval 12 15] None)
  /\ increasing [_InternalInterval 1 3; _InternalInterval 5 10; _InternalInterval 12 15]
  /\ separated [_InternalInterval 1 3; _InternalInterval 5 10; _InternalInterval 12 15]
  /\ no_empty [_InternalInterval 1 3; _InternalInterval 5 10; _InternalInterval 12 15].
Proof.
  assert (R1 : reachable S1).
  { apply (reach_init [_InternalInterval 10 15; _InternalInterval 1 5]);
      [repeat constructor; simpl; lia | reflexivity]. }
  assert (R2 : reachable S2).
  { apply (reach_init [_InternalInterval 3 12]);
      [repeat constructor; simpl; lia | reflexivity]. }
  assert (R : reachable
    (IntervalSet.mk
       [_InternalInterval 1 3; _InternalInterval 5 10; _InternalInterval 12 15] None)).
  { apply (reach_xor S1 S2); [exact R1 | exact R2 | reflexivity]. }
  split; [exact R|].
  exact (C6_reachable_invariants _ R).
Defined.

(** *** C7: intersection of two intervals *)

(** The method [Interval.__and__(self, other)], as a function of its two
    arguments: it is commutative, returns [self] on two equal arguments
    whose begin is strictly below the end, and returns the empty value when
    an argument is the empty value or one argument ends at or before the
    begin of the other. *)
Lemma __and___method (a b : Interval.t) :
  valid a -> valid b ->
  Interval.__and__ a b = Interval.__and__ b a
  /\ (forall ab ae, a = _InternalInterval ab ae -> ab < ae ->
      Interval.__and__ a a = Ok a)
  /\ (a = EMPTY_INTERVAL \/ b = EMPTY_INTERVAL ->
      Interval.__and__ a b = Ok EMPTY_INTERVAL)
  /\ (forall ab ae bb be,
        a = _InternalInterval ab ae -> b = _InternalInterval bb be ->
        ae <= bb \/ be <= ab ->
        Interval.__and__ a b = Ok EMPTY_INTERVAL).
Proof.
  intros Ha Hb. repeat split.
  - now apply __and___comm.
  - intros ab ae -> H. now apply __and___idem.
  - intros [-> | ->]; apply __and___empty.
  - intros ab ae bb be -> -> H. now apply __and___disjoint.
Qed.

(** The operators [&] and [|] never reach the methods when the left operand
    is the empty value: [EMPTY_INTERVAL] is [None], which has neither
    [__and__] nor [__or__], and an interval has no reflected method, so
    the interpreter raises [TypeError]; with the empty value on the right
    the method of the left operand runs. *)
Lemma op_empty_receiver (b : Interval.t) :
  Interval.op_and EMPTY_INTERVAL b = Raise TypeError
  /\ Interval.op_or EMPTY_INTERVAL b = Raise TypeError
  /\ (instance b -> Interval.op_and b EMPTY_INTERVAL = Ok EMPTY_INTERVAL)
  /\ (instance b -> Interval.op_or b EMPTY_INTERVAL = Raise ValueError).
Proof.
  repeat split; try reflexivity; destruct b; intros H; try reflexivity;
    discriminate H.
Qed.

(** An interval with equal end points is a truthy instance, and its
    intersection with itself is the empty value: the two operands touch
    on line 57. *)
Lemma degenerate_and_self (x : Z) :
  Interval.__new__ (Some x) (Some x) = Ok (_InternalInterval x x)
  /\ Interval.op_and (_InternalInterval x x) (_InternalInterval x x)
     = Ok EMPTY_INTERVAL.
Proof.
  unfold Interval.__new__, Interval.op_and, Interval.__and__.
  cbn [Interval.__bool__ negb orb Interval.end_ Interval.begin].
  rewrite Z.ltb_irrefl, Z.leb_refl. split; reflexivity.
Qed.

(** C7. The specification says that [a & b] is commutative, that it is the empty
    interval when an operand is the empty interval, and that [a & a == a]
    for every non-empty [a].  In the code
    [EMPTY_INTERVAL & Interval(1, 2)] raises [TypeError] while
    [Interval(1, 2) & EMPTY_INTERVAL] returns the empty interval; and
    [Interval(5, 5)] is a truthy instance whose intersection with itself is
    the empty interval. *)
Theorem C7_and_raises_on_empty_left_operand :
  Interval.op_and EMPTY_INTERVAL (_InternalInterval 1 2) = Raise TypeError
  /\ Interval.op_and (_InternalInterval 1 2) EMPTY_INTERVAL = Ok EMPTY_INTERVAL
  /\ Interval.__new__ (Some 5) (Some 5) = Ok (_InternalInterval 5 5)
  /\ Interval.__bool__ (_InternalInterval 5 5) = true
  /\ Interval.op_and (_InternalInterval 5 5) (_InternalInterval 5 5)
     = Ok EMPTY_INTERVAL.
Proof. repeat split; reflexivity. Qed.

(** *** C8: union of two intervals *)

(** The method [Interval.__or__(self, other)], as a function of its two
    arguments: it raises [ValueError] exactly when an argument is the empty
    value or one argument ends strictly before the other begins; in every
    other case it returns the interval from the smaller begin to the larger
    end; and it is commutative. *)
Lemma __or___method (a b : Interval.t) :
  valid a -> valid b ->
  (Interval.__or__ a b = Raise ValueError <->
   a = EMPTY_INTERVAL \/ b = EMPTY_INTERVAL \/ gap a b \/ gap b a)
  /\ (forall ab ae bb be,
        a = _InternalInterval ab ae -> b = _InternalInterval bb be ->
        ~ (ae < bb \/ be < ab) ->
        Interval.__or__ a b = Ok (_InternalInterval (Z.min ab bb) (Z.max ae be)))
  /\ Interval.__or__ a b = Interval.__or__ b a.
Proof.
  intros Ha Hb. split; [|split].
  - rewrite __or___raises.
    destruct a as [|ab ae], b as [|bb be]; simpl; try tauto.
    split; [tauto|]. intros [H | [H | H]]; [discriminate | discriminate | exact H].
  - intros ab ae bb be -> -> Hn. simpl in Ha, Hb.
    apply __or___instances; lia.
  - destruct a as [|ab ae], b as [|bb be]; try reflexivity.
    simpl in Ha, Hb.
    destruct (Z.ltb_spec ae bb) as [H1 | H1].
    { transitivity (@Raise Interval.t ValueError); [|symmetry];
        apply __or___raises; simpl; lia. }
    destruct (Z.ltb_spec be ab) as [H2 | H2].
    { transitivity (@Raise Interval.t ValueError); [|symmetry];
        apply __or___raises; simpl; lia. }
    rewrite !__or___instances by lia.
    now rewrite Z.min_comm, Z.max_comm.
Qed.

(** C8. The specification says that [a | b] raises the invalid-union error
    ([ValueError]) when either operand is the empty interval.  In the code
    [EMPTY_INTERVAL | Interval(1, 2)] and
    [EMPTY_INTERVAL | EMPTY_INTERVAL] raise [TypeError]; only with the
    empty interval on the right, [Interval(1, 2) | EMPTY_INTERVAL], does
    the call raise [ValueError]. *)
Theorem C8_or_raises_type_error_on_empty_left_operand :
  Interval.op_or EMPTY_INTERVAL (_InternalInterval 1 2) = Raise TypeError
  /\ Interval.op_or EMPTY_INTERVAL EMPTY_INTERVAL = Raise TypeError
  /\ Interval.op_or (_InternalInterval 1 2) EMPTY_INTERVAL = Raise ValueError.
Proof. repeat split; reflexivity. Qed.

(** *** C9: containment and the empty interval *)

(** [Interval.__contains__] is false when either argument is the empty
    interval. *)
Lemma contains_empty (x : Interval.t) :
  Interval.__contains__ EMPTY_INTERVAL x = false
  /\ Interval.__contains__ x EMPTY_INTERVAL = false.
Proof. destruct x; split; reflexivity. Qed.

(** Every non-empty interval set answers that it contains the empty
    interval. *)
Lemma set_contains_empty (s : IntervalSet.t) :
  IntervalSet.__bool__ s = true ->
  IntervalSet.__contains__ s (inl EMPTY_INTERVAL) = Ok true.
Proof. intros H. unfold IntervalSet.__contains__. simpl. now rewrite H. Qed.

(** C9. The specification says that [x in S] is false whenever [x] is the empty
    interval, for every interval set [S].  In the code
    [EMPTY_INTERVAL in IntervalSet(Interval(1, 5), Interval(10, 15))]
    is true: [EMPTY_INTERVAL] is [None], not an instance of [Interval], so
    the call computes [(self & None) == None], that is [None == None]. *)
Theorem C9_empty_is_member_of_nonempty_set :
  IntervalSet.__contains__ S1 (inl EMPTY_INTERVAL) = Ok true.
Proof. reflexivity. Qed.

(** *** C10: the defensive branch of normalization *)

(** In the order of the sort, a valid instance and a later one are in one
    of the three relations that the sweep knows. *)
Lemma sweep_relations (i1 i2 : Interval.t) :
  good i1 -> good i2 -> lex_le i1 i2 ->
  Interval.is_before_than i1 i2 = true
  \/ (exists i3, Interval.__and__ i1 i2 = Ok i3 /\ Interval.__bool__ i3 = true)
  \/ Interval.end_ i1 = Interval.begin i2.
Proof.
  destruct i1 as [|b1 e1], i2 as [|b2 e2]; try contradiction.
  cbn [good lex_le Interval.is_before_than Interval.end_ Interval.begin].
  intros H1 H2 Hle.
  destruct (Z.ltb_spec e1 b2); [now left | right].
  destruct (Z.eq_dec e1 b2) as [-> | Hne]; [now right | left].
  rewrite __and___instances by assumption.
  assert (Hn : (e1 <=? b2) || (e2 <=? b1) = false).
  { apply orb_false_iff. split; apply Z.leb_gt; lia. }
  rewrite Hn. eexists. split; reflexivity.
Qed.

(** C10. On every collection of values of the factory, normalization does
    not raise the internal error; and whenever [sorted] returns, so that the
    sweep runs, normalization returns. *)
Theorem C10_internal_error_unreachable (items : list Interval.t) :
  Forall valid items ->
  IntervalSet._fill_items items <> Raise InternalError
  /\ (forall it, Py.sorted items = Ok it ->
      exists l, IntervalSet._fill_items items = Ok l).
Proof.
  intros Hv. destruct (_fill_items_outcome items Hv) as [(l & Hl & _) | (Hr & Hlen & Hin)].
  - split; [congruence | eauto].
  - split; [congruence|].
    intros it Hit.
    assert (Hs : Py.sorted items = Raise TypeError) by now apply sorted_raises.
    congruence.
Qed.

Lemma C10_internal_error_unreachable_witness :
  Forall valid [_InternalInterval 5 10; _InternalInterval 5 5; _InternalInterval 0 5]
  /\ IntervalSet._fill_items
       [_InternalInterval 5 10; _InternalInterval 5 5; _InternalInterval 0 5]
     <> Raise InternalError.
Proof.
  assert (V : Forall valid
                [_InternalInterval 5 10; _InternalInterval 5 5; _InternalInterval 0 5])
    by (repeat constructor; simpl; lia).
  split; [exact V|].
  exact (proj1 (C10_internal_error_unreachable _ V)).
Defined.

(** * Further properties of the code *)

(** ** The factory and the algebra of two intervals *)

(** The factory on integers: the instance [(b, e)] exactly when [b <= e],
    the empty interval otherwise; what it returns is truthy exactly when
    [b <= e].  Without an end it returns the empty interval whatever the
    begin; with an end but no begin it raises [TypeError]. *)
Theorem factory_outcomes (b e : Z) :
  (b <= e <-> Interval.__new__ (Some b) (Some e) = Ok (_InternalInterval b e))
  /\ (e < b <-> Interval.__new__ (Some b) (Some e) = Ok EMPTY_INTERVAL)
  /\ (exists x, Interval.__new__ (Some b) (Some e) = Ok x
                /\ valid x /\ (Interval.__bool__ x = true <-> b <= e))
  /\ Interval.__new__ (Some b) None = Ok EMPTY_INTERVAL
  /\ Interval.__new__ None None = Ok EMPTY_INTERVAL
  /\ Interval.__new__ None (Some e) = Raise TypeError.
Proof.
  unfold Interval.__new__.
  destruct (Z.ltb_spec e b) as [H | H]; repeat split;
    try lia; try discriminate; try reflexivity; try (intros; exfalso; lia).
  - exists EMPTY_INTERVAL. repeat split; try discriminate. lia.
  - exists (_InternalInterval b e). repeat split; simpl; lia.
Qed.

(** An interval [b] with begin below end that lies in [a] is absorbed:
    [a & b] is [b] and [a | b] is [a]. *)
Theorem contained_absorbed (a b : Interval.t) :
  proper b -> Interval.__contains__ a b = true ->
  Interval.__and__ a b = Ok b /\ Interval.__or__ a b = Ok a.
Proof.
  destruct a as [|ab ae], b as [|bb be]; simpl; try contradiction; try discriminate.
  intros Hp Hc. rewrite Z.geb_leb in Hc. apply andb_true_iff in Hc.
  destruct Hc as [H1 H2]. apply Z.leb_le in H1, H2.
  zcases; try lia; split; try reflexivity; repeat f_equal; lia.
Qed.

Lemma contained_absorbed_witness :
  proper (_InternalInterval 2 5)
  /\ Interval.__contains__ (_InternalInterval 0 10) (_InternalInterval 2 5) = true
  /\ Interval.__and__ (_InternalInterval 0 10) (_InternalInterval 2 5)
     = Ok (_InternalInterval 2 5)
  /\ Interval.__or__ (_InternalInterval 0 10) (_InternalInterval 2 5)
     = Ok (_InternalInterval 0 10).
Proof.
  assert (P : proper (_InternalInterval 2 5)) by (simpl; lia).
  split; [exact P|]. split; [reflexivity|].
  exact (contained_absorbed (_InternalInterval 0 10) (_InternalInterval 2 5) P eq_refl).
Defined.

(** When [a] is before [b], their intersection is the empty interval and
    their union raises; and when [a] is after [b], [b] is before [a]. *)
Theorem before_is_disjoint (a b : Interval.t) :
  (Interval.is_before_than a b = true ->
   Interval.__and__ a b = Ok EMPTY_INTERVAL
   /\ Interval.__or__ a b = Raise ValueError)
  /\ (Interval.is_after_than a b = true ->
      Interval.is_before_than b a = true /\ instance a /\ instance b).
Proof.
  destruct a as [|ab ae], b as [|bb be]; simpl; split; intros H;
    try discriminate; try (split; reflexivity).
  - apply Z.ltb_lt in H. split.
    + destruct (Z.leb_spec ae bb); [reflexivity | lia].
    + destruct (Z.ltb_spec ae bb); [reflexivity | lia].
  - repeat split. exact H.
Qed.

(** Containment orders the instances: every instance contains itself,
    containment is transitive, and two intervals that contain each other
    are equal. *)
Theorem contains_is_order (a b c : Interval.t) :
  (instance a -> Interval.__contains__ a a = true)
  /\ (Interval.__contains__ a b = true -> Interval.__contains__ b c = true ->
      Interval.__contains__ a c = true)
  /\ (Interval.__contains__ a b = true -> Interval.__contains__ b a = true -> a = b).
Proof.
  destruct a as [|ab ae], b as [|bb be], c as [|cb ce]; simpl;
    repeat split; try discriminate; rewrite ?Z.geb_leb;
    intros; repeat match goal with
    | H : _ && _ = true |- _ => apply andb_true_iff in H; destruct H
    | H : (_ <=? _) = true |- _ => apply Z.leb_le in H
    end;
    try (apply andb_true_iff; split; apply Z.leb_le; lia);
    try (f_equal; lia).
Qed.

Lemma contains_is_order_witness :
  instance (_InternalInterval 0 10)
  /\ Interval.__contains__ (_InternalInterval 0 10) (_InternalInterval 0 10) = true
  /\ Interval.__contains__ (_InternalInterval 0 10) (_InternalInterval 3 4) = true.
Proof.
  destruct (contains_is_order (_InternalInterval 0 10) (_InternalInterval 2 5)
              (_InternalInterval 3 4)) as (Hr & Ht & _).
  split; [reflexivity|]. split; [exact (Hr eq_refl)|].
  exact (Ht eq_refl eq_refl).
Defined.

(** Containment between two instances, in terms of their end points. *)
Lemma contains_iff (ab ae xb xe : Z) :
  Interval.__contains__ (_InternalInterval ab ae) (_InternalInterval xb xe) = true
  <-> ab <= xb /\ xe <= ae.
Proof.
  cbn [Interval.__contains__]. rewrite Z.geb_leb, andb_true_iff, !Z.leb_le. tauto.
Qed.

(** The intersection of two valid intervals, when it is not the empty
    interval, lies in both; and every interval with begin below end that
    lies in both lies in the intersection. *)
Theorem and_is_largest_common_part (a b c : Interval.t) :
  valid a -> valid b -> Interval.__and__ a b = Ok c ->
  (instance c -> Interval.__contains__ a c = true /\ Interval.__contains__ b c = true)
  /\ (forall x, proper x ->
      Interval.__contains__ a x = true -> Interval.__contains__ b x = true ->
      Interval.__contains__ c x = true).
Proof.
  destruct a as [|ab ae], b as [|bb be];
    try (intros _ _ [= <-]; split; [discriminate|]; intros [|? ?]; discriminate).
  cbn [valid]. intros Ha Hb. rewrite __and___instances by assumption.
  intros [= <-]. split.
  - destruct ((ae <=? bb) || (be <=? ab)); [discriminate|]. intros _.
    rewrite !contains_iff. lia.
  - intros [|xb xe]; [contradiction|]. cbn [proper]. rewrite !contains_iff.
    intros Hx H1 H2.
    destruct (Z.leb_spec ae bb); [lia|]. destruct (Z.leb_spec be ab); [lia|].
    cbn [orb]. rewrite contains_iff. lia.
Qed.

Lemma and_is_largest_common_part_witness :
  valid (_InternalInterval 1 5) /\ valid (_InternalInterval 3 12)
  /\ Interval.__and__ (_InternalInterval 1 5) (_InternalInterval 3 12)
     = Ok (_InternalInterval 3 5)
  /\ Interval.__contains__ (_InternalInterval 1 5) (_InternalInterval 3 5) = true
  /\ Interval.__contains__ (_InternalInterval 3 12) (_InternalInterval 3 5) = true.
Proof.
  assert (V1 : valid (_InternalInterval 1 5)) by (simpl; lia).
  assert (V2 : valid (_InternalInterval 3 12)) by (simpl; lia).
  split; [exact V1|]. split; [exact V2|]. split; [reflexivity|].
  exact (proj1 (and_is_largest_common_part _ _ (_InternalInterval 3 5) V1 V2 eq_refl) eq_refl).
Defined.

(** The union of two valid intervals, when it is defined, contains both,
    and every interval that contains both contains the union. *)
Theorem or_is_smallest_common_hull (a b c : Interval.t) :
  valid a -> valid b -> Interval.__or__ a b = Ok c ->
  Interval.__contains__ c a = true /\ Interval.__contains__ c b = true
  /\ (forall x, Interval.__contains__ x a = true -> Interval.__contains__ x b = true ->
      Interval.__contains__ x c = true).
Proof.
  destruct a as [|ab ae], b as [|bb be]; try discriminate.
  cbn [valid]. intros Ha Hb Hc.
  destruct (Z.ltb_spec ae bb) as [H1 | H1].
  { assert (Hr : Interval.__or__ (_InternalInterval ab ae) (_InternalInterval bb be)
                 = Raise ValueError) by (apply __or___raises; simpl; lia).
    congruence. }
  destruct (Z.ltb_spec be ab) as [H2 | H2].
  { assert (Hr : Interval.__or__ (_InternalInterval ab ae) (_InternalInterval bb be)
                 = Raise ValueError) by (apply __or___raises; simpl; lia).
    congruence. }
  rewrite __or___instances in Hc by lia. injection Hc as <-.
  rewrite !contains_iff. repeat split; try lia.
  intros [|xb xe]; [discriminate|]. rewrite !contains_iff. lia.
Qed.

Lemma or_is_smallest_common_hull_witness :
  valid (_InternalInterval 1 5) /\ valid (_InternalInterval 5 9)
  /\ Interval.__or__ (_InternalInterval 1 5) (_InternalInterval 5 9)
     = Ok (_InternalInterval 1 9)
  /\ Interval.__contains__ (_InternalInterval 1 9) (_InternalInterval 1 5) = true.
Proof.
  assert (V1 : valid (_InternalInterval 1 5)) by (simpl; lia).
  assert (V2 : valid (_InternalInterval 5 9)) by (simpl; lia).
  split; [exact V1|]. split; [exact V2|]. split; [reflexivity|].
  exact (proj1 (or_is_smallest_common_hull _ _ (_InternalInterval 1 9) V1 V2 eq_refl)).
Defined.

(** ** Normalization: idempotent, blind to the order of its argument, and
    faithful to the values covered *)

Section NormalizationFacts.

Implicit Types x y z : Interval.t.
Implicit Types l s it acc items : list Interval.t.

Lemma lex_le_antisym x y : lex_le x y -> lex_le y x -> x = y.
Proof. destruct x, y; simpl; try tauto. intros H1 H2. f_equal; lia. Qed.

(** A sorted list has one sorted rearrangement: itself. *)
Lemma sorted_unique s : forall s',
  StronglySorted lex_le s -> StronglySorted lex_le s' -> Permutation s s' -> s = s'.
Proof.
  induction s as [|x s IH]; intros s' Hs Hs' Hp.
  - apply Permutation_nil in Hp. now subst.
  - destruct s' as [|x' s'].
    { apply Permutation_sym, Permutation_nil in Hp. discriminate. }
    apply StronglySorted_inv in Hs, Hs'.
    destruct Hs as [Hs Hx], Hs' as [Hs' Hx'].
    assert (E : x = x').
    { assert (H1 : In x (x' :: s')) by (apply (Permutation_in _ Hp); now left).
      assert (H2 : In x' (x :: s))
        by (apply (Permutation_in _ (Permutation_sym Hp)); now left).
      rewrite Forall_forall in Hx, Hx'.
      destruct H1 as [H1 | H1]; [now symmetry|].
      destruct H2 as [H2 | H2]; [assumption|].
      apply lex_le_antisym; auto. }
    subst x'. f_equal. apply IH; try assumption.
    now apply Permutation_cons_inv in Hp.
Qed.

Lemma insort_least x s : Forall (lex_le x) s -> Py.insort x s = Ok (x :: s).
Proof.
  destruct s as [|y s]; [reflexivity|]. intros H. apply Forall_inv in H.
  destruct x as [|xb xe], y as [|yb ye]; try contradiction. simpl in *.
  destruct (Z.ltb_spec yb xb); [lia|].
  destruct (Z.eqb_spec yb xb); [|reflexivity].
  destruct (Z.ltb_spec ye xe); [lia | reflexivity].
Qed.

(** [sorted] returns a sorted list as it is. *)
Lemma sorted_id l : StronglySorted lex_le l -> Py.sorted l = Ok l.
Proof.
  induction 1 as [|x l Hl IH Hx]; [reflexivity|].
  simpl. rewrite IH. simpl. now apply insort_least.
Qed.

Lemma canonical_sorted l : canonical l -> StronglySorted lex_le l.
Proof.
  intros (_ & Hv & Hs). induction Hs as [|x l Hs IH Hx]; [constructor|].
  apply Forall_cons_iff in Hv. destruct Hv as [Hvx Hv].
  constructor; [now apply IH|].
  eapply Forall_impl; [|exact Hx].
  intros y. destruct x, y; simpl in *; try tauto. lia.
Qed.

(** The sweep over instances that are already separated appends them
    unchanged. *)
Lemma unify_separated it : forall i1 acc,
  Forall instance (i1 :: it) -> StronglySorted gap (i1 :: it) ->
  IntervalSet.unify i1 it acc = Ok (acc ++ i1 :: it).
Proof.
  induction it as [|i2 it IH]; intros i1 acc Hi Hs.
  - apply Forall_inv in Hi. destruct i1; [discriminate | reflexivity].
  - apply StronglySorted_inv in Hs. destruct Hs as [Hs Hg].
    assert (Hg2 := Forall_inv Hg).
    destruct i1 as [|b1 e1], i2 as [|b2 e2]; try contradiction.
    cbn [gap] in Hg2.
    cbn [IntervalSet.unify Interval.call_is_before_than Interval.is_before_than bind].
    destruct (Z.ltb_spec e1 b2); [|lia].
    rewrite IH; [|now apply Forall_inv_tail in Hi | assumption].
    now rewrite <- app_assoc.
Qed.

Lemma _fill_items_id l : canonical l -> IntervalSet._fill_items l = Ok l.
Proof.
  intros Hc. destruct (_fill_items_eq l) as [-> | [Hne ->]]; [reflexivity|].
  rewrite (sorted_id l (canonical_sorted l Hc)). cbn [bind].
  destruct Hc as (Hi & _ & Hs).
  destruct l as [|x l]; [contradiction|].
  rewrite first_nonempty_instance by now apply Forall_inv in Hi.
  now rewrite unify_separated.
Qed.

Lemma __init___id l : canonical l -> IntervalSet.__init__ l = Ok (IntervalSet.mk l None).
Proof. intros H. unfold IntervalSet.__init__. now rewrite _fill_items_id. Qed.

Lemma sorted_perm l l' : Permutation l l' -> Py.sorted l = Py.sorted l'.
Proof.
  intros Hp.
  assert (Hraise : forall k k', Permutation k k' ->
            Py.sorted k = Raise TypeError -> Py.sorted k' = Raise TypeError).
  { intros k k' Hk Hr. apply sorted_raises in Hr. apply sorted_raises.
    destruct Hr as [Hlen Hin]. split.
    - now rewrite <- (Permutation_length Hk).
    - now apply (Permutation_in _ Hk). }
  destruct (sorted_outcome l) as [[s Hs] | Hr].
  - destruct (sorted_outcome l') as [[s' Hs'] | Hr'].
    + rewrite Hs, Hs'. f_equal.
      destruct (sorted_Ok _ _ Hs) as [P1 S1'], (sorted_Ok _ _ Hs') as [P2 S2'].
      apply sorted_unique; try assumption.
      now rewrite <- P1, Hp.
    + apply (Hraise l' l (Permutation_sym Hp)) in Hr'. congruence.
  - rewrite Hr. symmetry. now apply (Hraise l l').
Qed.

Lemma covers_perm l l' (z : Z) : Permutation l l' -> covers l z -> covers l' z.
Proof.
  intros Hp (b & e & Hin & Hz). exists b, e. split; [|assumption].
  now apply (Permutation_in _ Hp).
Qed.

Lemma covers_app l l' (z : Z) : covers (l ++ l') z <-> covers l z \/ covers l' z.
Proof.
  unfold covers. split.
  - intros (b & e & Hin & Hz). apply in_app_or in Hin.
    destruct Hin; [left | right]; eauto.
  - intros [(b & e & Hin & Hz) | (b & e & Hin & Hz)]; exists b, e;
      (split; [apply in_or_app; auto | assumption]).
Qed.

Lemma covers_cons x l (z : Z) : covers (x :: l) z <-> covers [x] z \/ covers l z.
Proof. apply (covers_app [x] l). Qed.

Lemma covers_one (b e z : Z) : covers [_InternalInterval b e] z <-> b <= z <= e.
Proof.
  unfold covers. split.
  - intros (b' & e' & [[= -> ->] | []] & Hz). exact Hz.
  - intros Hz. exists b, e. split; [now left | assumption].
Qed.

(** The sweep neither loses nor adds a covered value. *)
Lemma unify_covers it : forall i1 acc l,
  instance i1 -> valid i1 ->
  Forall (lex_le i1) it -> StronglySorted lex_le it -> Forall valid it ->
  IntervalSet.unify i1 it acc = Ok l ->
  forall z : Z, covers l z <-> covers (acc ++ i1 :: it) z.
Proof.
  induction it as [|i2 it IH]; intros i1 acc l Hi Hv Hle Hs Hvs Hl z.
  - destruct i1 as [|b1 e1]; [discriminate|]. simpl in Hl. now injection Hl as <-.
  - apply Forall_cons_iff in Hle. destruct Hle as [Hle12 Hle].
    apply StronglySorted_inv in Hs. destruct Hs as [Hs Hle2].
    apply Forall_cons_iff in Hvs. destruct Hvs as [Hv2 Hvs].
    destruct i1 as [|b1 e1]; [discriminate|].
    destruct i2 as [|b2 e2]; [contradiction|].
    cbn [valid lex_le] in Hv, Hv2, Hle12.
    cbn [IntervalSet.unify Interval.call_is_before_than Interval.is_before_than bind] in Hl.
    destruct (Z.ltb_spec e1 b2) as [Hlt | Hge].
    + rewrite (IH (_InternalInterval b2 e2) _ _ eq_refl Hv2 Hle2 Hs Hvs Hl z).
      now rewrite <- app_assoc.
    + cbn [Interval.op_and] in Hl. rewrite __and___instances in Hl by assumption.
      cbn [bind] in Hl.
      assert (Hov :
        (if Interval.__bool__
              (if (e1 <=? b2) || (e2 <=? b1) then EMPTY_INTERVAL
               else _InternalInterval (Z.max b1 b2) (Z.min e1 e2))
         then Ok true
         else e1' <- Interval.end_ (_InternalInterval b1 e1) ;;
              b2' <- Interval.begin (_InternalInterval b2 e2) ;; Ok (e1' =? b2'))
        = Ok true).
      { destruct (Z.leb_spec e1 b2), (Z.leb_spec e2 b1); simpl; try reflexivity;
          f_equal; apply Z.eqb_eq; lia. }
      rewrite Hov in Hl. cbn [bind Interval.op_or] in Hl.
      rewrite __or___instances in Hl by lia. cbn [bind] in Hl.
      assert (Hle' : Forall (lex_le (_InternalInterval (Z.min b1 b2) (Z.max e1 e2))) it).
      { rewrite Forall_forall in Hle, Hle2 |- *. intros y Hy.
        specialize (Hle y Hy). specialize (Hle2 y Hy).
        destruct y as [|yb ye]; simpl in *; [contradiction | lia]. }
      assert (Hvu : valid (_InternalInterval (Z.min b1 b2) (Z.max e1 e2))) by (simpl; lia).
      rewrite (IH (_InternalInterval (Z.min b1 b2) (Z.max e1 e2)) _ _ eq_refl Hvu Hle' Hs Hvs Hl z).
      rewrite !covers_app.
      rewrite (covers_cons (_InternalInterval (Z.min b1 b2) (Z.max e1 e2)) it).
      rewrite (covers_cons (_InternalInterval b1 e1) (_InternalInterval b2 e2 :: it)).
      rewrite (covers_cons (_InternalInterval b2 e2) it).
      rewrite !covers_one. intuition lia.
Qed.

Lemma _fill_items_covers items l :
  Forall valid items -> IntervalSet._fill_items items = Ok l ->
  forall z : Z, covers l z <-> covers items z.
Proof.
  intros Hv Hl z. destruct (_fill_items_eq items) as [-> | [Hne E]].
  - injection Hl as <-. reflexivity.
  - rewrite E in Hl.
    destruct (Py.sorted items) as [s| |] eqn:Hs; cbn [bind] in Hl; try discriminate.
    destruct (sorted_Ok _ _ Hs) as [Hp Hss].
    assert (Hvs : Forall valid s) by (eapply Permutation_Forall; eassumption).
    assert (Hcs : covers s z <-> covers items z).
    { split; apply covers_perm; [now apply Permutation_sym | assumption]. }
    rewrite <- Hcs. clear Hcs.
    destruct s as [|x s].
    { apply Permutation_sym, Permutation_nil in Hp. contradiction. }
    destruct x as [|b e].
    + assert (Hs1 := sorted_with_empty _ Hss (or_introl eq_refl)).
      injection Hs1 as ->. simpl in Hl. injection Hl as <-.
      split; intros (b & e & Hin & _); [destruct Hin | destruct Hin as [? | []]; discriminate].
    + rewrite first_nonempty_instance in Hl by reflexivity.
      apply StronglySorted_inv in Hss. destruct Hss as [Hss Hle].
      apply Forall_cons_iff in Hvs. destruct Hvs as [Hvx Hvs].
      apply (unify_covers s (_InternalInterval b e) [] l eq_refl Hvx Hle Hss Hvs Hl z).
Qed.

End NormalizationFacts.

(** Building a set from a canonical sequence reproduces the sequence. *)
Theorem normalization_idempotent (l : list Interval.t) :
  canonical l ->
  IntervalSet.__init__ l = Ok (IntervalSet.mk l None).
Proof. apply __init___id. Qed.

Lemma normalization_idempotent_witness :
  canonical (_items S1) /\ IntervalSet.__init__ (_items S1) = Ok S1.
Proof.
  assert (C : canonical (_items S1)).
  { repeat split; repeat constructor; simpl; lia. }
  split; [exact C|]. exact (normalization_idempotent _ C).
Defined.

(** The order of the arguments of the constructor is insignificant: two
    rearrangements of one collection give the same outcome. *)
Theorem normalization_ignores_order (items items' : list Interval.t) :
  Permutation items items' ->
  IntervalSet.__init__ items = IntervalSet.__init__ items'.
Proof.
  intros Hp. unfold IntervalSet.__init__. f_equal.
  destruct (_fill_items_eq items) as [-> | [Hne ->]].
  - apply Permutation_nil in Hp. now subst.
  - destruct (_fill_items_eq items') as [-> | [Hne' ->]].
    + apply Permutation_sym, Permutation_nil in Hp. contradiction.
    + now rewrite (sorted_perm _ _ Hp).
Qed.

Lemma normalization_ignores_order_witness :
  Permutation [_InternalInterval 10 15; _InternalInterval 1 5]
              [_InternalInterval 1 5; _InternalInterval 10 15]
  /\ IntervalSet.__init__ [_InternalInterval 10 15; _InternalInterval 1 5]
     = IntervalSet.__init__ [_InternalInterval 1 5; _InternalInterval 10 15].
Proof.
  assert (P : Permutation [_InternalInterval 10 15; _InternalInterval 1 5]
                          [_InternalInterval 1 5; _InternalInterval 10 15])
    by apply perm_swap.
  split; [exact P|]. exact (normalization_ignores_order _ _ P).
Defined.

(** Normalization keeps the values covered: a value lies between the
    begin and the end of a member of the set exactly when it lies between
    those of an interval given to the constructor. *)
Theorem normalization_keeps_coverage (items : list Interval.t) (s : IntervalSet.t) :
  Forall valid items -> IntervalSet.__init__ items = Ok s ->
  forall z : Z, covers (_items s) z <-> covers items z.
Proof.
  intros Hv. unfold IntervalSet.__init__.
  destruct (IntervalSet._fill_items items) as [l| |] eqn:Hl; simpl; try discriminate.
  intros [= <-]. simpl. now apply _fill_items_covers.
Qed.

Lemma normalization_keeps_coverage_witness :
  Forall valid [_InternalInterval 3 8; _InternalInterval 1 5]
  /\ (covers [_InternalInterval 1 8] 6
      <-> covers [_InternalInterval 3 8; _InternalInterval 1 5] 6).
Proof.
  assert (V : Forall valid [_InternalInterval 3 8; _InternalInterval 1 5])
    by (repeat constructor; simpl; lia).
  split; [exact V|].
  exact (normalization_keeps_coverage _ (IntervalSet.mk [_InternalInterval 1 8] None)
           V eq_refl 6).
Defined.

(** ** Membership, indexing, hashing *)

Section Members.

Implicit Types x y m : Interval.t.
Implicit Types l : list Interval.t.

(** The scan of [__contains__] returns on instances, and answers whether
    a member contains the interval asked for. *)
Lemma contains_scan_spec l x :
  Forall instance l ->
  exists b, IntervalSet.contains_scan l x = Ok b /\ (b = true <-> inside l x).
Proof.
  induction 1 as [|m l Hm Hl IH]; simpl.
  - exists false. split; [reflexivity|]. split; [discriminate|].
    intros (m & [] & _).
  - destruct m as [|mb me]; [discriminate|]. cbn [Interval.op_in bind].
    destruct (Interval.__contains__ (_InternalInterval mb me) x) eqn:Hc.
    + exists true. split; [reflexivity|]. split; [|reflexivity].
      intros _. exists (_InternalInterval mb me). split; [now left | assumption].
    + destruct IH as (b & -> & Hb). exists b. split; [reflexivity|].
      rewrite Hb. split.
      * intros (m & Hin & Hm'). exists m. split; [now right | assumption].
      * intros (m & [<- | Hin] & Hm'); [congruence|]. exists m. now split.
Qed.

(** Two members of a separated sequence are equal or one ends before the
    other begins. *)
Lemma separated_members l m m' :
  StronglySorted gap l -> In m l -> In m' l -> m = m' \/ gap m m' \/ gap m' m.
Proof.
  induction 1 as [|x l Hs IH Hx]; [contradiction|].
  rewrite Forall_forall in Hx.
  intros [<- | H1] [<- | H2]; auto.
Qed.

Lemma StronglySorted_nth {A : Type} (R : A -> A -> Prop) (xs : list A) :
  StronglySorted R xs ->
  forall (i j : nat) (a a' : A),
    (i < j)%nat -> nth_error xs i = Some a -> nth_error xs j = Some a' -> R a a'.
Proof.
  induction 1 as [|a0 xs Hs IH Ha]; intros i j a a' Hij Hi Hj.
  - destruct i; discriminate.
  - destruct j as [|j]; [lia|]. simpl in Hj. destruct i as [|i].
    + injection Hi as <-. rewrite Forall_forall in Ha.
      apply Ha. eapply nth_error_In; eassumption.
    + simpl in Hi. apply (IH i j); [lia | assumption | assumption].
Qed.

Lemma last_default {A : Type} (xs : list A) (a a0 d : A) :
  last (a0 :: xs) a = last (a0 :: xs) d.
Proof.
  revert a0. induction xs as [|a1 xs IH]; intros a0; [reflexivity|].
  change (last (a0 :: a1 :: xs) a) with (last (a1 :: xs) a).
  change (last (a0 :: a1 :: xs) d) with (last (a1 :: xs) d).
  apply IH.
Qed.

Lemma nth_error_last {A : Type} (xs : list A) : forall a : A,
  nth_error (a :: xs) (length xs) = Some (last xs a).
Proof.
  induction xs as [|a0 xs IH]; intros a; [reflexivity|].
  change (nth_error (a :: a0 :: xs) (length (a0 :: xs)))
    with (nth_error (a0 :: xs) (length xs)).
  rewrite IH. f_equal. destruct xs as [|a1 xs]; [reflexivity|].
  change (last (a0 :: a1 :: xs) a) with (last (a1 :: xs) a).
  apply last_default.
Qed.

(** Indexing with an index in range. *)
Lemma __getitem___in_range (s : IntervalSet.t) (i : Z) :
  0 <= i < Z.of_nat (length (_items s)) ->
  IntervalSet.__getitem__ s i =
  match nth_error (_items s) (Z.to_nat i) with
  | Some x => Found x
  | None => IndexError
  end
  /\ IntervalSet.__getitem__ s (i - Z.of_nat (length (_items s)))
     = IntervalSet.__getitem__ s i.
Proof.
  intros Hi. unfold IntervalSet.__getitem__.
  destruct (Z.ltb_spec i 0); [lia|].
  destruct (Z.ltb_spec (i - Z.of_nat (length (_items s))) 0); [|lia].
  replace (i - Z.of_nat (length (_items s)) + Z.of_nat (length (_items s))) with i by lia.
  destruct (Z.ltb_spec i 0); [lia|].
  destruct (Z.leb_spec (Z.of_nat (length (_items s))) i); [lia|].
  split; reflexivity.
Qed.

Lemma __getitem___outside (s : IntervalSet.t) (i : Z) :
  i < - Z.of_nat (length (_items s)) \/ Z.of_nat (length (_items s)) <= i ->
  IntervalSet.__getitem__ s i = IndexError.
Proof.
  intros H. unfold IntervalSet.__getitem__.
  destruct (Z.ltb_spec i 0).
  - destruct (Z.ltb_spec (i + Z.of_nat (length (_items s))) 0); [reflexivity | lia].
  - destruct (Z.ltb_spec i 0); [lia|].
    destruct (Z.leb_spec (Z.of_nat (length (_items s))) i); [reflexivity | lia].
Qed.

Lemma __getitem___found (s : IntervalSet.t) (i : Z) :
  - Z.of_nat (length (_items s)) <= i < Z.of_nat (length (_items s)) ->
  exists x, IntervalSet.__getitem__ s i = Found x /\ In x (_items s).
Proof.
  intros H.
  assert (Hnth : forall k, 0 <= k < Z.of_nat (length (_items s)) ->
            exists x, IntervalSet.__getitem__ s k = Found x /\ In x (_items s)).
  { intros k Hk. rewrite (proj1 (__getitem___in_range s k Hk)).
    destruct (nth_error (_items s) (Z.to_nat k)) as [x|] eqn:E.
    - exists x. split; [reflexivity|]. eapply nth_error_In; eassumption.
    - apply nth_error_None in E. lia. }
  destruct (Z.ltb_spec i 0) as [Hneg | Hpos].
  - destruct (Hnth (i + Z.of_nat (length (_items s))) ltac:(lia)) as (x & Hx & Hin).
    exists x. split; [|assumption]. rewrite <- Hx.
    rewrite <- (proj2 (__getitem___in_range s (i + Z.of_nat (length (_items s)))
                         ltac:(lia))).
    f_equal. lia.
  - apply Hnth. lia.
Qed.

Lemma __getitem___position (s : IntervalSet.t) (i : Z) (x : Interval.t) :
  0 <= i -> IntervalSet.__getitem__ s i = Found x ->
  nth_error (_items s) (Z.to_nat i) = Some x.
Proof.
  intros Hi Hx.
  destruct (Z.ltb_spec i (Z.of_nat (length (_items s)))) as [Hlt | Hge].
  - rewrite (proj1 (__getitem___in_range s i ltac:(lia))) in Hx.
    destruct (nth_error (_items s) (Z.to_nat i)); [now injection Hx as -> | discriminate].
  - rewrite __getitem___outside in Hx by lia. discriminate.
Qed.

End Members.

(** Membership of an interval in a reachable set: the call returns, it is
    true exactly when a member of the set contains the interval, and no
    two members contain one valid interval. *)
Theorem membership_of_interval (s : IntervalSet.t) (x : Interval.t) :
  reachable s -> instance x ->
  (exists b, IntervalSet.__contains__ s (inl x) = Ok b
             /\ (b = true <-> inside (_items s) x))
  /\ (valid x -> forall m m',
        In m (_items s) -> In m' (_items s) ->
        Interval.__contains__ m x = true -> Interval.__contains__ m' x = true ->
        m = m').
Proof.
  intros Hr Hx. apply reachable_canonical in Hr. destruct Hr as (Hi & Hv & Hs).
  split.
  - unfold IntervalSet.__contains__. rewrite Hx. now apply contains_scan_spec.
  - intros Hvx m m' Hm Hm' Hc Hc'.
    destruct (separated_members _ _ _ Hs Hm Hm') as [E | [G | G]]; [assumption | |];
      destruct m as [|mb me], m' as [|mb' me'], x as [|xb xe]; try contradiction;
      try discriminate; apply contains_iff in Hc, Hc'; simpl in *; lia.
Qed.

Lemma membership_of_interval_witness :
  exists b, IntervalSet.__contains__ S1 (inl (_InternalInterval 2 3)) = Ok b
            /\ (b = true <-> inside (_items S1) (_InternalInterval 2 3)).
Proof.
  assert (R1 : reachable S1).
  { apply (reach_init [_InternalInterval 10 15; _InternalInterval 1 5]);
      [repeat constructor; simpl; lia | reflexivity]. }
  exact (proj1 (membership_of_interval S1 (_InternalInterval 2 3) R1 eq_refl)).
Defined.

(** Indexing a reachable set: an integer index outside [-len, len) raises
    [IndexError] and every other index finds a member; a member at a lower
    index ends strictly before a member at a higher index begins; [i] and
    [i - len] find the same member; [min()] is the member at index [0] and
    [max()] the member at index [-1]; and [min()] is [None] exactly on the
    empty set. *)
Theorem indexing_in_increasing_order (s : IntervalSet.t) :
  reachable s ->
  let n := Z.of_nat (IntervalSet.__len__ s) in
  (forall i, IntervalSet.__getitem__ s i = IndexError <-> i < - n \/ n <= i)
  /\ (forall i j x y, 0 <= i < j ->
        IntervalSet.__getitem__ s i = Found x ->
        IntervalSet.__getitem__ s j = Found y ->
        Interval.is_before_than x y = true /\ instance x /\ instance y)
  /\ (forall i, 0 <= i < n ->
        IntervalSet.__getitem__ s (i - n) = IntervalSet.__getitem__ s i)
  /\ (IntervalSet.__bool__ s = true ->
        IntervalSet.__getitem__ s 0 = Found (IntervalSet.min s)
        /\ IntervalSet.__getitem__ s (-1) = Found (IntervalSet.max s))
  /\ (IntervalSet.min s = EMPTY_INTERVAL <-> IntervalSet.__bool__ s = false).
Proof.
  intros Hr n. apply reachable_canonical in Hr. destruct Hr as (Hi & Hv & Hs).
  unfold n, IntervalSet.__len__. clear n.
  split; [|split; [|split; [|split]]].
  - intros i. split.
    + intros E.
      destruct (Z.ltb_spec i (- Z.of_nat (length (_items s)))); [now left|].
      destruct (Z.leb_spec (Z.of_nat (length (_items s))) i); [now right|].
      destruct (__getitem___found s i ltac:(lia)) as (x & Hx & _). congruence.
    + apply __getitem___outside.
  - intros i j x y Hij Hx Hy.
    apply __getitem___position in Hx; [|lia].
    apply __getitem___position in Hy; [|lia].
    assert (Hg : gap x y).
    { apply (StronglySorted_nth gap (_items s) Hs (Z.to_nat i) (Z.to_nat j));
        [lia | assumption | assumption]. }
    destruct x, y; try contradiction. simpl in Hg.
    repeat split. now apply Z.ltb_lt.
  - intros i Hi'. apply (__getitem___in_range s i Hi').
  - intros Hb. unfold IntervalSet.__bool__ in Hb.
    destruct (_items s) as [|x l] eqn:E; [discriminate|]. split.
    + unfold IntervalSet.__getitem__, IntervalSet.min. now rewrite E.
    + assert (Hlen : Z.of_nat (length (_items s)) = Z.of_nat (length l) + 1)
        by (rewrite E; simpl length; lia).
      assert (Hr : 0 <= Z.of_nat (length l) < Z.of_nat (length (_items s))) by lia.
      replace (-1) with (Z.of_nat (length l) - Z.of_nat (length (_items s))) by lia.
      rewrite (proj2 (__getitem___in_range s _ Hr)).
      rewrite (proj1 (__getitem___in_range s _ Hr)).
      rewrite Nat2Z.id. unfold IntervalSet.max. rewrite E.
      now rewrite nth_error_last.
  - unfold IntervalSet.min, IntervalSet.__bool__.
    destruct (_items s) as [|x l]; [split; reflexivity|].
    split; [|discriminate]. intros ->. apply Forall_inv in Hi. discriminate.
Qed.

Lemma indexing_in_increasing_order_witness :
  reachable S1
  /\ IntervalSet.__getitem__ S1 (-1) = Found (IntervalSet.max S1)
  /\ (IntervalSet.__getitem__ S1 2 = IndexError <-> 2 < - 2 \/ 2 <= 2).
Proof.
  assert (R1 : reachable S1).
  { apply (reach_init [_InternalInterval 10 15; _InternalInterval 1 5]);
      [repeat constructor; simpl; lia | reflexivity]. }
  destruct (indexing_in_increasing_order S1 R1) as (H1 & _ & _ & H4 & _).
  split; [exact R1|]. split; [exact (proj2 (H4 eq_refl)) | exact (H1 2)].
Defined.

(** [==] between interval sets is an equivalence: reflexive, symmetric
    and transitive.  A call of [hash] changes nothing but the cache: the
    members stay, a second call answers the same and leaves the instance
    as it is. *)
Theorem eq_is_equivalence (a b c : IntervalSet.t) :
  fst (IntervalSet.__eq__ a a) = true
  /\ fst (IntervalSet.__eq__ a b) = fst (IntervalSet.__eq__ b a)
  /\ (fst (IntervalSet.__eq__ a b) = true -> fst (IntervalSet.__eq__ b c) = true ->
      fst (IntervalSet.__eq__ a c) = true)
  /\ _items (snd (IntervalSet.__hash__ a)) = _items a
  /\ IntervalSet.__hash__ (snd (IntervalSet.__hash__ a))
     = (fst (IntervalSet.__hash__ a), snd (IntervalSet.__hash__ a))
  /\ _items (fst (snd (IntervalSet.__eq__ a b))) = _items a
  /\ _items (snd (snd (IntervalSet.__eq__ a b))) = _items b.
Proof.
  unfold IntervalSet.__eq__, IntervalSet.__hash__.
  destruct a as [la [ha|]], b as [lb [hb|]], c as [lc [hc|]]; simpl;
    repeat split; try apply Z.eqb_refl; try apply Z.eqb_sym;
    rewrite ?Z.eqb_eq; congruence.
Qed.

Lemma eq_is_equivalence_witness :
  fst (IntervalSet.__eq__ S4 S5) = true /\ fst (IntervalSet.__eq__ S5 S4) = true
  /\ fst (IntervalSet.__eq__ S4 S4) = true.
Proof.
  destruct (eq_is_equivalence S4 S5 S4) as (_ & _ & Ht & _).
  assert (H1 : fst (IntervalSet.__eq__ S4 S5) = true) by (vm_compute; reflexivity).
  assert (H2 : fst (IntervalSet.__eq__ S5 S4) = true) by (vm_compute; reflexivity).
  split; [exact H1|]. split; [exact H2|]. exact (Ht H1 H2).
Defined.

(** ** Set operations with the empty set *)

(** With an empty operand [E] the operations return an operand itself:
    [E & A], [E - A] return [E]; [E | A], [A - E] and [E ^ A] return [A];
    and for [A] not empty [A & E] returns [E], [A | E] and [A ^ E] return
    [A]. *)
Theorem operations_with_empty_set (a e : IntervalSet.t) :
  _items e = [] ->
  IntervalSet.__and__ e a = Ok e
  /\ IntervalSet.__or__ e a = Ok a
  /\ IntervalSet.__sub__ a e = Ok a
  /\ IntervalSet.__sub__ e a = Ok e
  /\ IntervalSet.__xor__ e a = Ok a
  /\ (_items a <> [] ->
      IntervalSet.__and__ a e = Ok e
      /\ IntervalSet.__or__ a e = Ok a
      /\ IntervalSet.__xor__ a e = Ok a).
Proof.
  intros He.
  assert (Hand : IntervalSet.__and__ e a = Ok e).
  { unfold IntervalSet.__and__. now rewrite He. }
  assert (Hor : IntervalSet.__or__ e a = Ok a).
  { unfold IntervalSet.__or__. now rewrite He. }
  assert (Hsub : IntervalSet.__sub__ a e = Ok a).
  { unfold IntervalSet.__sub__. rewrite He. now destruct (_items a). }
  assert (Hsub' : IntervalSet.__sub__ e a = Ok e).
  { unfold IntervalSet.__sub__. now rewrite He. }
  repeat split; try assumption.
  - unfold IntervalSet.__xor__. rewrite Hor, Hand. exact Hsub.
  - unfold IntervalSet.__and__. rewrite He.
    destruct (_items a); [now contradiction H | reflexivity].
  - unfold IntervalSet.__or__. rewrite He.
    destruct (_items a); [now contradiction H | reflexivity].
  - unfold IntervalSet.__xor__, IntervalSet.__or__, IntervalSet.__and__. rewrite He.
    destruct (_items a) eqn:Ea; [now contradiction H|]. exact Hsub.
Qed.

Lemma operations_with_empty_set_witness :
  _items (IntervalSet.mk [] None) = []
  /\ IntervalSet.__xor__ (IntervalSet.mk [] None) S1 = Ok S1
  /\ IntervalSet.__and__ S1 (IntervalSet.mk [] None) = Ok (IntervalSet.mk [] None).
Proof.
  destruct (operations_with_empty_set S1 (IntervalSet.mk [] None) eq_refl)
    as (_ & _ & _ & _ & H5 & H6).
  split; [reflexivity|]. split; [exact H5|].
  apply H6. discriminate.
Defined.

(** ** The set operations return *)

(** On reachable operands each of [&], [|], [-] and [^] returns an
    interval set, reachable in turn: it neither raises nor loops for
    ever. *)
Theorem operations_return (a b : IntervalSet.t) :
  reachable a -> reachable b ->
  (exists s, IntervalSet.__and__ a b = Ok s /\ reachable s)
  /\ (exists s, IntervalSet.__or__ a b = Ok s /\ reachable s)
  /\ (exists s, IntervalSet.__sub__ a b = Ok s /\ reachable s)
  /\ (exists s, IntervalSet.__xor__ a b = Ok s /\ reachable s).
Proof.
  intros Ha Hb.
  destruct (reachable_total a b Ha Hb) as ((s1 & H1) & (s2 & H2) & (s3 & H3) & (s4 & H4)).
  repeat split.
  - exists s1. split; [assumption|]. now apply (reach_and a b).
  - exists s2. split; [assumption|]. now apply (reach_or a b).
  - exists s3. split; [assumption|]. now apply (reach_sub a b).
  - exists s4. split; [assumption|]. now apply (reach_xor a b).
Qed.

Lemma operations_return_witness :
  reachable S1 /\ reachable S2
  /\ exists s, IntervalSet.__xor__ S1 S2 = Ok s /\ reachable s.
Proof.
  assert (R1 : reachable S1).
  { apply (reach_init [_InternalInterval 10 15; _InternalInterval 1 5]);
      [repeat constructor; simpl; lia | reflexivity]. }
  assert (R2 : reachable S2).
  { apply (reach_init [_InternalInterval 3 12]);
      [repeat constructor; simpl; lia | reflexivity]. }
  split; [exact R1|]. split; [exact R2|].
  exact (proj2 (proj2 (proj2 (operations_return S1 S2 R1 R2)))).
Defined.

(** ** What the intersection of two sets contains *)

Section IntersectionFacts.

Implicit Types x m : Interval.t.
Implicit Types l acc : list Interval.t.

Lemma inside_nil x : ~ inside [] x.
Proof. intros (m & [] & _). Qed.

Lemma inside_cons m l x :
  inside (m :: l) x <-> Interval.__contains__ m x = true \/ inside l x.
Proof.
  unfold inside. split.
  - intros (m' & [<- | Hin] & Hc); [now left | right; eauto].
  - intros [Hc | (m' & Hin & Hc)]; [exists m | exists m']; simpl; auto.
Qed.

Lemma inside_snoc l m x :
  inside (l ++ [m]) x <-> inside l x \/ Interval.__contains__ m x = true.
Proof.
  unfold inside. split.
  - intros (m' & Hin & Hc). apply in_app_or in Hin.
    destruct Hin as [Hin | [<- | []]]; [left; eauto | now right].
  - intros [(m' & Hin & Hc) | Hc]; [exists m' | exists m];
      (split; [apply in_or_app; simpl; auto | assumption]).
Qed.

Lemma canonical_cons_inv m l :
  canonical (m :: l) -> good m /\ canonical l /\ Forall (gap m) l.
Proof.
  intros (Hi & Hv & Hs).
  apply Forall_cons_iff in Hi, Hv. apply StronglySorted_inv in Hs.
  destruct Hi as [Hi Hil], Hv as [Hv Hvl], Hs as [Hs Hg].
  split; [now apply good_iff|]. split; [now repeat split | assumption].
Qed.

(** The members after [(b, e)] in a canonical sequence begin after [c]
    when [c <= e]. *)
Lemma begins_after_tail (b e c : Z) l :
  Forall (gap (_InternalInterval b e)) l -> c <= e -> Forall (begins_after c) l.
Proof.
  intros Hg Hc. eapply Forall_impl; [|exact Hg].
  intros [|mb me]; simpl; [trivial | lia].
Qed.

(** An interval that ends by [c] lies in no member that begins after [c]. *)
Lemma inside_begins_after l (c xb xe : Z) :
  Forall (begins_after c) l -> xb <= xe -> xe <= c ->
  ~ inside l (_InternalInterval xb xe).
Proof.
  intros Hl Hx Hc (m & Hin & Hm).
  rewrite Forall_forall in Hl. specialize (Hl m Hin).
  destruct m as [|mb me]; [discriminate|].
  apply contains_iff in Hm. simpl in Hl. lia.
Qed.

(** The loop of [__and__] on two canonical sequences: what it returns is
    canonical, and holds the intervals with begin below end that lie in
    both sequences, beside what the output held before. *)
Lemma and_loop_exact (n : nat) : forall it1 i1 it2 i2 acc R,
  (length it1 + length it2 < n)%nat ->
  canonical (i1 :: it1) -> canonical (i2 :: it2) -> canonical acc ->
  Forall (fun x => gap x i1 \/ gap x i2) acc ->
  IntervalSet.and_loop it1 i1 it2 i2 acc = Ok R ->
  canonical R /\
  forall x, proper x ->
    (inside R x <->
     inside acc x \/ (inside (i1 :: it1) x /\ inside (i2 :: it2) x)).
Proof.
  induction n as [|n IH]; intros it1 i1 it2 i2 acc R Hn HA HB Hacc Hinv HR; [lia|].
  destruct (canonical_cons_inv _ _ HA) as (G1 & HA' & Hg1).
  destruct (canonical_cons_inv _ _ HB) as (G2 & HB' & Hg2).
  destruct i1 as [|b1 e1]; [contradiction|].
  destruct i2 as [|b2 e2]; [contradiction|].
  cbn [good] in G1, G2.
  rewrite and_loop_eq in HR.
  cbn [Interval.call_is_before_than Interval.is_before_than bind
       Interval.op_and Interval.end_] in HR.
  (* facts about an interval x = (xb, xe) in the current members *)
  assert (F12 : forall x, proper x -> e1 < b2 ->
            Interval.__contains__ (_InternalInterval b1 e1) x = true ->
            inside (_InternalInterval b2 e2 :: it2) x -> False).
  { intros [|xb xe] Hx Hlt Hc; [contradiction|]. simpl in Hx.
    apply contains_iff in Hc.
    apply (inside_begins_after _ e1 xb xe); [|lia|lia].
    constructor; [simpl; lia|]. apply (begins_after_tail b2 e2); [assumption | lia]. }
  assert (F21 : forall x, proper x -> e2 < b1 ->
            Interval.__contains__ (_InternalInterval b2 e2) x = true ->
            inside (_InternalInterval b1 e1 :: it1) x -> False).
  { intros [|xb xe] Hx Hlt Hc; [contradiction|]. simpl in Hx.
    apply contains_iff in Hc.
    apply (inside_begins_after _ e2 xb xe); [|lia|lia].
    constructor; [simpl; lia|]. apply (begins_after_tail b1 e1); [assumption | lia]. }
  assert (T1 : forall x, proper x -> e1 <= e2 ->
            Interval.__contains__ (_InternalInterval b1 e1) x = true ->
            inside it2 x -> False).
  { intros [|xb xe] Hx Hlt Hc; [contradiction|]. simpl in Hx.
    apply contains_iff in Hc.
    apply (inside_begins_after _ e1 xb xe); [|lia|lia].
    apply (begins_after_tail b2 e2); [assumption | lia]. }
  assert (T2 : forall x, proper x -> e2 <= e1 ->
            Interval.__contains__ (_InternalInterval b2 e2) x = true ->
            inside it1 x -> False).
  { intros [|xb xe] Hx Hlt Hc; [contradiction|]. simpl in Hx.
    apply contains_iff in Hc.
    apply (inside_begins_after _ e2 xb xe); [|lia|lia].
    apply (begins_after_tail b1 e1); [assumption | lia]. }
  (* the invariant of the output when one sequence advances *)
  assert (Adv1 : forall i1' it1' acc', it1 = i1' :: it1' ->
            Forall (fun x => gap x (_InternalInterval b1 e1)
                             \/ gap x (_InternalInterval b2 e2)) acc' ->
            Forall (fun x => gap x i1' \/ gap x (_InternalInterval b2 e2)) acc').
  { intros i1' it1' acc' -> H. apply Forall_inv in Hg1.
    eapply Forall_impl; [|exact H]. intros x [Hx | Hx]; [left | now right].
    destruct x, i1'; simpl in *; try contradiction. lia. }
  assert (Adv2 : forall i2' it2' acc', it2 = i2' :: it2' ->
            Forall (fun x => gap x (_InternalInterval b1 e1)
                             \/ gap x (_InternalInterval b2 e2)) acc' ->
            Forall (fun x => gap x (_InternalInterval b1 e1) \/ gap x i2') acc').
  { intros i2' it2' acc' -> H. apply Forall_inv in Hg2.
    eapply Forall_impl; [|exact H]. intros x [Hx | Hx]; [now left | right].
    destruct x, i2'; simpl in *; try contradiction. lia. }
  destruct (Z.ltb_spec e1 b2) as [Hlt | Hge]; cbn [bind] in HR.
  { (* i1 is before i2 *)
    destruct it1 as [|i1' it1'].
    - injection HR as <-. split; [assumption|]. intros x Hx.
      rewrite (inside_cons _ [] x).
      pose proof (F12 x Hx Hlt). pose proof (inside_nil x). tauto.
    - destruct (IH it1' i1' it2 (_InternalInterval b2 e2) acc R) as [HcR HiR];
        try assumption; [simpl in Hn; lia | now apply (Adv1 i1' it1') |].
      split; [assumption|]. intros x Hx. rewrite (HiR x Hx).
      rewrite (inside_cons (_InternalInterval b1 e1) (i1' :: it1') x).
      pose proof (F12 x Hx Hlt). tauto. }
  destruct (Z.ltb_spec e2 b1) as [Hlt' | Hge']; cbn [bind] in HR.
  { (* i2 is before i1 *)
    destruct it2 as [|i2' it2'].
    - injection HR as <-. split; [assumption|]. intros x Hx.
      rewrite (inside_cons _ [] x).
      pose proof (F21 x Hx Hlt'). pose proof (inside_nil x). tauto.
    - destruct (IH it1 (_InternalInterval b1 e1) it2' i2' acc R) as [HcR HiR];
        try assumption; [simpl in Hn; lia | now apply (Adv2 i2' it2') |].
      split; [assumption|]. intros x Hx. rewrite (HiR x Hx).
      rewrite (inside_cons (_InternalInterval b2 e2) (i2' :: it2') x).
      pose proof (F21 x Hx Hlt'). tauto. }
  (* the two overlap or touch *)
  rewrite __and___instances in HR by assumption. cbn [bind] in HR.
  remember (if (e1 <=? b2) || (e2 <=? b1) then EMPTY_INTERVAL
            else _InternalInterval (Z.max b1 b2) (Z.min e1 e2)) as i3 eqn:Ei3.
  remember (if Interval.__bool__ i3 then acc ++ [i3] else acc) as acc' eqn:Eacc'.
  assert (Hacc' : canonical acc' /\
            Forall (fun x => gap x (_InternalInterval b1 e1)
                             \/ gap x (_InternalInterval b2 e2)
                             \/ (x = i3 /\ instance i3)) acc' /\
            (forall x, proper x ->
               (inside acc' x <->
                inside acc x \/
                (Interval.__contains__ (_InternalInterval b1 e1) x = true /\
                 Interval.__contains__ (_InternalInterval b2 e2) x = true)))).
  { rewrite Eacc', Ei3. clear Eacc' Ei3 HR.
    assert (Hempty : (e1 <=? b2) || (e2 <=? b1) = true ->
              canonical acc /\
              Forall (fun x => gap x (_InternalInterval b1 e1)
                               \/ gap x (_InternalInterval b2 e2)
                               \/ (x = EMPTY_INTERVAL /\ instance EMPTY_INTERVAL)) acc /\
              (forall x, proper x ->
                 (inside acc x <->
                  inside acc x \/
                  (Interval.__contains__ (_InternalInterval b1 e1) x = true /\
                   Interval.__contains__ (_InternalInterval b2 e2) x = true)))).
    { intros Hor. apply orb_true_iff in Hor. rewrite !Z.leb_le in Hor.
      split; [assumption|]. split.
      - eapply Forall_impl; [|exact Hinv]. intros x; cbv beta; tauto.
      - intros [|xb xe] Hx; [contradiction|]. simpl in Hx.
        rewrite !contains_iff. split; [tauto|]. intros [? | ?]; [assumption | lia]. }
    destruct ((e1 <=? b2) || (e2 <=? b1)) eqn:Hor; cbn [Interval.__bool__];
      [now apply Hempty|].
    apply orb_false_iff in Hor. rewrite !Z.leb_gt in Hor.
    split; [|split].
    - apply canonical_snoc; [assumption | reflexivity | simpl; lia |].
      eapply Forall_impl; [|exact Hinv].
      intros [|xb xe]; simpl; [tauto | lia].
    - apply Forall_app. split.
      + eapply Forall_impl; [|exact Hinv]. intros x; cbv beta; tauto.
      + constructor; [right; right; now split | constructor].
    - intros [|xb xe] Hx; [contradiction|]. simpl in Hx.
      rewrite inside_snoc, !contains_iff. intuition lia. }
  destruct Hacc' as (Hc' & Hinv' & Hin').
  clear Eacc'.
  destruct (Z.ltb_spec e1 e2) as [He | He].
  { (* i1 ends first *)
    assert (Hinv1 : forall i1' it1', it1 = i1' :: it1' ->
              Forall (fun x => gap x i1' \/ gap x (_InternalInterval b2 e2)) acc').
    { intros i1' it1' ->. apply Forall_inv in Hg1.
      eapply Forall_impl; [|exact Hinv']. intros x [Hx | [Hx | [-> Hi3]]].
      - left. destruct x, i1'; simpl in *; try contradiction. lia.
      - now right.
      - left. rewrite Ei3 in Hi3 |- *.
        destruct ((e1 <=? b2) || (e2 <=? b1)); [discriminate|].
        destruct i1'; simpl in *; try contradiction. lia. }
    destruct it1 as [|i1' it1'].
    - injection HR as <-. split; [assumption|]. intros x Hx.
      rewrite (Hin' x Hx), (inside_cons _ [] x), (inside_cons _ it2 x).
      pose proof (T1 x Hx ltac:(lia)). pose proof (inside_nil x). tauto.
    - destruct (IH it1' i1' it2 (_InternalInterval b2 e2) acc' R) as [HcR HiR];
        try assumption; [simpl in Hn; lia | now apply (Hinv1 i1' it1') |].
      split; [assumption|]. intros x Hx. rewrite (HiR x Hx), (Hin' x Hx).
      rewrite (inside_cons (_InternalInterval b1 e1) (i1' :: it1') x).
      rewrite (inside_cons (_InternalInterval b2 e2) it2 x).
      pose proof (T1 x Hx ltac:(lia)). tauto. }
  { (* i2 ends first, or both end together *)
    assert (Hinv2 : forall i2' it2', it2 = i2' :: it2' ->
              Forall (fun x => gap x (_InternalInterval b1 e1) \/ gap x i2') acc').
    { intros i2' it2' ->. apply Forall_inv in Hg2.
      eapply Forall_impl; [|exact Hinv']. intros x [Hx | [Hx | [-> Hi3]]].
      - now left.
      - right. destruct x, i2'; simpl in *; try contradiction. lia.
      - right. rewrite Ei3 in Hi3 |- *.
        destruct ((e1 <=? b2) || (e2 <=? b1)); [discriminate|].
        destruct i2'; simpl in *; try contradiction. lia. }
    destruct it2 as [|i2' it2'].
    - injection HR as <-. split; [assumption|]. intros x Hx.
      rewrite (Hin' x Hx), (inside_cons _ [] x), (inside_cons _ it1 x).
      pose proof (T2 x Hx He). pose proof (inside_nil x). tauto.
    - destruct (IH it1 (_InternalInterval b1 e1) it2' i2' acc' R) as [HcR HiR];
        try assumption; [simpl in Hn; lia | now apply (Hinv2 i2' it2') |].
      split; [assumption|]. intros x Hx. rewrite (HiR x Hx), (Hin' x Hx).
      rewrite (inside_cons (_InternalInterval b2 e2) (i2' :: it2') x).
      rewrite (inside_cons (_InternalInterval b1 e1) it1 x).
      pose proof (T2 x Hx He). tauto. }
Qed.

End IntersectionFacts.

(** ** What the difference of two sets contains *)

Section DifferenceFacts.

Variables LA LB : list Interval.t.

Ltac sub_proj :=
  cbn [IntervalSet.b1 IntervalSet.e1 IntervalSet.it1 IntervalSet.b2
       IntervalSet.e2 IntervalSet.it2 IntervalSet.new_items] in *.

Ltac inv_split :=
  split; [|split; [|split; [|split; [|split; [|split; [|split; [|split;
    [|split; [|split; [|split; [|split]]]]]]]]]]].

Lemma sub_sound_snoc (acc : list Interval.t) (pb pe : Z) :
  sub_sound LA LB acc -> pb < pe -> Forall (ends_by (pb - 1)) acc ->
  inside LA (_InternalInterval pb pe) ->
  Forall (apart (_InternalInterval pb pe)) LB ->
  sub_sound LA LB (acc ++ [Interval.new pb pe]).
Proof.
  intros [Hc Hp] Hlt He Hin Hap. rewrite new_instance by lia. split.
  - apply canonical_snoc; [assumption | reflexivity | simpl; lia |].
    destruct Hc as (Hi & _ & _). rewrite Forall_forall in Hi, He |- *.
    intros p Hp'. specialize (Hi p Hp'). specialize (He p Hp').
    destruct p; [discriminate|]. simpl in *. lia.
  - apply Forall_app. split; [assumption|]. constructor; [now split | constructor].
Qed.

Lemma ends_by_weaken (c c' : Z) (l : list Interval.t) :
  c <= c' -> Forall (ends_by c) l -> Forall (ends_by c') l.
Proof.
  intros Hc. apply Forall_impl. intros [|b e]; simpl; [trivial | lia].
Qed.

Lemma next1_sound (s : IntervalSet.sub_state) (acc' : list Interval.t) :
  sub_state_inv LA LB s -> sub_sound LA LB acc' ->
  Forall (ends_by (IntervalSet.e1 s)) acc' ->
  match IntervalSet.next1 s acc' with
  | Stop r => exists R, r = Ok R /\ sub_sound LA LB R
  | Next s' => sub_state_inv LA LB s'
  end.
Proof.
  destruct s as [b1 e1 it1 b2 e2 it2 acc]. unfold sub_state_inv, IntervalSet.next1.
  sub_proj.
  intros (H1 & Hm & Hincl & Hg1 & Hba & Hs1 & H2 & Hp2 & Hg2 & Hs2 & HLB & Hacc & Hends)
         Hacc' Hends'.
  destruct it1 as [|x it1']; [eauto|].
  apply Forall_cons_iff in Hg1, Hba. destruct Hg1 as [Hx Hg1], Hba as [Hbx Hba].
  apply StronglySorted_inv in Hs1. destruct Hs1 as [Hs1 Hgx].
  destruct x as [|b e]; [contradiction|]. cbn [IntervalSet.unpack]. sub_proj.
  simpl in Hx, Hbx.
  inv_split; try assumption.
  - exists b, e. split; [apply Hincl; now left | lia].
  - intros m Hin. apply Hincl. now right.
  - apply (begins_after_tail b e); [assumption | lia].
  - eapply Forall_impl; [|exact HLB]. intros m [Hm' | Hm']; [left | now right].
    destruct m; simpl in *; [trivial | lia].
  - apply (ends_by_weaken e1); [lia | assumption].
Qed.

Lemma next2_sound (s : IntervalSet.sub_state) (b1' : Z) :
  sub_state_inv LA LB s ->
  IntervalSet.b1 s <= b1' -> b1' <= IntervalSet.e1 s -> IntervalSet.e2 s <= b1' ->
  match IntervalSet.next2 s b1' with
  | Stop r => exists R, r = Ok R /\ sub_sound LA LB R
  | Next s' => sub_state_inv LA LB s'
  end.
Proof.
  destruct s as [b1 e1 it1 b2 e2 it2 acc]. unfold sub_state_inv, IntervalSet.next2.
  sub_proj.
  intros (H1 & Hm & Hincl & Hg1 & Hba & Hs1 & H2 & Hp2 & Hg2 & Hs2 & HLB & Hacc & Hends)
         Hb Hb' He.
  destruct Hm as (mb & me & Hmin & Hmb & Hme).
  destruct it2 as [|y it2'].
  - eexists. split; [reflexivity|]. unfold IntervalSet.add_last.
    destruct (IntervalSet.truthy b1' && IntervalSet.truthy e1); cbn [andb]; [|assumption].
    destruct (Z.ltb_spec b1' e1); [|assumption].
    apply sub_sound_snoc; try assumption.
    + apply (ends_by_weaken (b1 - 1)); [lia | assumption].
    + exists (_InternalInterval mb me). split; [assumption|]. apply contains_iff. lia.
    + eapply Forall_impl; [|exact HLB]. intros m [Hm' | [-> | []]].
      * destruct m; simpl in *; [trivial | lia].
      * simpl. lia.
  - apply Forall_cons_iff in Hp2, Hg2. destruct Hp2 as [Hy Hp2], Hg2 as [Hgy Hg2].
    apply StronglySorted_inv in Hs2. destruct Hs2 as [Hs2 Hgy'].
    destruct y as [|b e]; [contradiction|]. cbn [IntervalSet.unpack]. sub_proj.
    simpl in Hy.
    inv_split; try assumption.
    + exists mb, me. split; [assumption | lia].
    + eapply Forall_impl; [|exact HLB]. intros m [Hm' | [-> | [<- | Hm']]].
      * left. destruct m; simpl in *; [trivial | lia].
      * left. simpl. lia.
      * right. now left.
      * right. now right.
    + apply (ends_by_weaken (b1 - 1)); [lia | assumption].
Qed.

(** A turn of the loop keeps the state sound; it never repeats for ever. *)
Lemma sub_turn_sound (s : IntervalSet.sub_state) :
  sub_state_inv LA LB s ->
  match IntervalSet.sub_turn s with
  | Stop r => exists R, r = Ok R /\ sub_sound LA LB R
  | Next s' => sub_state_inv LA LB s'
  end.
Proof.
  intros Hinv. assert (Hinv' := Hinv).
  destruct s as [b1 e1 it1 b2 e2 it2 acc].
  unfold sub_state_inv in Hinv'. sub_proj.
  destruct Hinv'
    as (H1 & Hm & Hincl & Hg1 & Hba & Hs1 & H2 & Hp2 & Hg2 & Hs2 & HLB & Hacc & Hends).
  destruct Hm as (mb & me & Hmin & Hmb & Hme).
  unfold IntervalSet.sub_turn. rewrite Z.geb_leb.
  (* a piece (b1, pe) with pe <= e1 that ends by b2 *)
  assert (Hpiece : forall pe, b1 < pe -> pe <= e1 -> pe <= b2 ->
            sub_sound LA LB (acc ++ [Interval.new b1 pe])
            /\ Forall (ends_by e1) (acc ++ [Interval.new b1 pe])).
  { intros pe Hlt Hle Hle2. split.
    - apply sub_sound_snoc; try assumption.
      + exists (_InternalInterval mb me). split; [assumption|]. apply contains_iff. lia.
      + eapply Forall_impl; [|exact HLB]. intros m [Hm' | [-> | Hm']].
        * destruct m; simpl in *; [trivial | lia].
        * simpl. lia.
        * rewrite Forall_forall in Hg2. specialize (Hg2 m Hm').
          destruct m; simpl in *; [trivial | lia].
    - apply Forall_app. split.
      + apply (ends_by_weaken (b1 - 1)); [lia | assumption].
      + rewrite new_instance by lia. constructor; [simpl; lia | constructor]. }
  destruct (Z.leb_spec e1 b1).
  { apply (next1_sound _ acc Hinv Hacc).
    apply (ends_by_weaken (b1 - 1)); [sub_proj; lia | assumption]. }
  destruct (Z.leb_spec e1 b2).
  { destruct (Hpiece e1) as [Hs He]; try lia. now apply next1_sound. }
  destruct (Z.leb_spec e2 b1).
  { apply next2_sound; sub_proj; try assumption; lia. }
  destruct (Z.ltb_spec b1 b2) as [Hb12 | Hb12].
  - destruct (Z.leb_spec b2 e1); [|lia].
    destruct (Z.leb_spec e1 e2); cbn [andb].
    + destruct (Hpiece b2) as [Hs He]; try lia. now apply next1_sound.
    + destruct (Z.leb_spec b2 b1); [lia|]. cbn [andb].
      destruct (Z.leb_spec b2 e2); [|lia].
      destruct (Z.leb_spec e2 e1); [|lia]. cbn [andb].
      destruct (Hpiece b2) as [Hs He]; try lia.
      unfold sub_state_inv. sub_proj.
      inv_split; try assumption; try lia.
      * exists mb, me. split; [assumption | lia].
      * eapply Forall_impl; [|exact HLB]. intros m [Hm' | Hm']; [left | now right].
        destruct m; simpl in *; [trivial | lia].
      * apply Forall_app. split.
        -- apply (ends_by_weaken (b1 - 1)); [lia | assumption].
        -- rewrite new_instance by lia. constructor; [simpl; lia | constructor].
  - cbn [andb].
    destruct (Z.leb_spec b2 b1); [|lia].
    destruct (Z.leb_spec b1 e2); [|lia]. cbn [andb].
    destruct (Z.ltb_spec e2 e1).
    + apply next2_sound; sub_proj; try assumption; lia.
    + destruct (Z.leb_spec b1 e1); [|lia].
      destruct (Z.leb_spec e1 e2); [|lia]. cbn [andb].
      apply (next1_sound _ acc Hinv Hacc).
      apply (ends_by_weaken (b1 - 1)); [sub_proj; lia | assumption].
Qed.

Lemma sub_loop_sound (n : nat) : forall s R,
  sub_state_inv LA LB s -> IntervalSet.sub_loop n s = Some (Ok R) ->
  sub_sound LA LB R.
Proof.
  induction n as [|n IH]; intros s R Hinv HR; [discriminate|].
  simpl in HR. pose proof (sub_turn_sound s Hinv) as Ht.
  destruct (IntervalSet.sub_turn s) as [s'|r].
  - now apply (IH s').
  - destruct Ht as (R' & -> & HR'). now injection HR as <-.
Qed.

End DifferenceFacts.

Section SetSemantics.

Implicit Types a b s : IntervalSet.t.

Lemma __and___inside a b s :
  canonical (_items a) -> canonical (_items b) ->
  IntervalSet.__and__ a b = Ok s ->
  forall x, proper x ->
    (inside (_items s) x <-> inside (_items a) x /\ inside (_items b) x).
Proof.
  intros Ha Hb. unfold IntervalSet.__and__.
  destruct (_items a) as [|i1 it1] eqn:Ea.
  { intros [= <-] x _. rewrite Ea. pose proof (inside_nil x). tauto. }
  destruct (_items b) as [|i2 it2] eqn:Eb.
  { intros [= <-] x _. rewrite Eb. pose proof (inside_nil x). tauto. }
  destruct (IntervalSet.and_loop it1 i1 it2 i2 []) as [R| |] eqn:HR;
    cbn [bind]; try discriminate.
  destruct (and_loop_exact (S (length it1 + length it2)) it1 i1 it2 i2 [] R)
    as [HcR HiR]; try assumption; [lia | apply canonical_nil | constructor |].
  rewrite (__init___id R HcR). intros [= <-] x Hx. cbn [_items].
  rewrite (HiR x Hx). pose proof (inside_nil x). tauto.
Qed.

Lemma __contains___inside s x :
  canonical (_items s) -> instance x ->
  exists c, IntervalSet.__contains__ s (inl x) = Ok c
            /\ (c = true <-> inside (_items s) x).
Proof.
  intros (Hi & _ & _) Hx. unfold IntervalSet.__contains__. rewrite Hx.
  now apply contains_scan_spec.
Qed.

Lemma __sub___sound a b s :
  canonical (_items a) -> canonical (_items b) -> Forall proper (_items b) ->
  IntervalSet.__sub__ a b = Ok s ->
  sub_sound (_items a) (_items b) (_items s)
  \/ (s = a /\ (_items a = [] \/ _items b = [])).
Proof.
  intros Ha Hb Hp. unfold IntervalSet.__sub__.
  destruct (_items a) as [|i1 it1] eqn:Ea; [intros [= <-]; right; auto|].
  destruct (_items b) as [|i2 it2] eqn:Eb; [intros [= <-]; right; auto|].
  destruct (canonical_cons_inv _ _ Ha) as (G1 & (Hi1 & Hv1 & Hs1) & Hg1).
  destruct (canonical_cons_inv _ _ Hb) as (G2 & (Hi2 & Hv2 & Hs2) & Hg2).
  apply Forall_cons_iff in Hp. destruct Hp as [P2 Hp].
  destruct i1 as [|b1 e1]; [contradiction|].
  destruct i2 as [|b2 e2]; [contradiction|].
  cbn [IntervalSet.unpack bind fst snd]. cbn [good proper] in G1, P2.
  match goal with
  | |- context [IntervalSet.sub_loop ?n ?st] =>
      destruct (IntervalSet.sub_loop n st) as [[R| |]|] eqn:HR
  end; cbn [bind]; try discriminate.
  assert (HsR : sub_sound (_InternalInterval b1 e1 :: it1)
                  (_InternalInterval b2 e2 :: it2) R).
  { eapply sub_loop_sound; [|exact HR].
    unfold sub_state_inv.
    cbn [IntervalSet.b1 IntervalSet.e1 IntervalSet.it1 IntervalSet.b2
         IntervalSet.e2 IntervalSet.it2 IntervalSet.new_items].
    split; [assumption|]. split; [exists b1, e1; split; [now left | lia]|].
    split; [intros m Hm; now right|]. split; [apply Forall_good; now split|].
    split; [apply (begins_after_tail b1 e1); [assumption | lia]|].
    split; [assumption|]. split; [assumption|]. split; [assumption|].
    split; [assumption|]. split; [assumption|].
    split; [|split; [split; [apply canonical_nil | constructor] | constructor]].
    apply Forall_forall. intros m [<- | Hm]; [right; now left | right; now right]. }
  rewrite (__init___id R (proj1 HsR)). intros [= <-]. now left.
Qed.

End SetSemantics.

(** The intersection of two reachable sets contains exactly what both
    contain: for an interval with begin below end, [x in (A & B)] is true
    exactly when [x in A] and [x in B] are. *)
Theorem intersection_contains_common_parts (a b s : IntervalSet.t) (x : Interval.t) :
  reachable a -> reachable b -> IntervalSet.__and__ a b = Ok s -> proper x ->
  exists ca cb cs,
    IntervalSet.__contains__ a (inl x) = Ok ca
    /\ IntervalSet.__contains__ b (inl x) = Ok cb
    /\ IntervalSet.__contains__ s (inl x) = Ok cs
    /\ cs = ca && cb.
Proof.
  intros Ra Rb Hs Hx.
  assert (Rs : reachable s) by now apply (reach_and a b).
  apply reachable_canonical in Ra, Rb, Rs.
  assert (Hi : instance x) by (destruct x; [contradiction | reflexivity]).
  destruct (__contains___inside a x Ra Hi) as (ca & Ha & Hca).
  destruct (__contains___inside b x Rb Hi) as (cb & Hb & Hcb).
  destruct (__contains___inside s x Rs Hi) as (cs & Hs' & Hcs).
  exists ca, cb, cs. repeat split; try assumption.
  pose proof (__and___inside a b s Ra Rb Hs x Hx) as Hin.
  destruct ca, cb, cs; simpl; try reflexivity; exfalso;
    intuition discriminate.
Qed.

Lemma intersection_contains_common_parts_witness :
  exists ca cb cs,
    IntervalSet.__contains__ S1 (inl (_InternalInterval 3 4)) = Ok ca
    /\ IntervalSet.__contains__ S2 (inl (_InternalInterval 3 4)) = Ok cb
    /\ IntervalSet.__contains__
         (IntervalSet.mk [_InternalInterval 3 5; _InternalInterval 10 12] None)
         (inl (_InternalInterval 3 4)) = Ok cs
    /\ cs = ca && cb.
Proof.
  assert (R1 : reachable S1).
  { apply (reach_init [_InternalInterval 10 15; _InternalInterval 1 5]);
      [repeat constructor; simpl; lia | reflexivity]. }
  assert (R2 : reachable S2).
  { apply (reach_init [_InternalInterval 3 12]);
      [repeat constructor; simpl; lia | reflexivity]. }
  apply (intersection_contains_common_parts S1 S2 _ (_InternalInterval 3 4) R1 R2);
    [reflexivity | simpl; lia].
Defined.

(** The difference of two reachable sets, when the members of [B] have
    their begin below their end, holds nothing but parts of [A] that [B]
    does not touch: an interval in [A - B] is in [A], and its intersection
    with every member of [B] is the empty interval. *)
Theorem difference_within_first_outside_second (a b s : IntervalSet.t) (x : Interval.t) :
  reachable a -> reachable b -> Forall proper (_items b) ->
  IntervalSet.__sub__ a b = Ok s ->
  instance x -> IntervalSet.__contains__ s (inl x) = Ok true ->
  IntervalSet.__contains__ a (inl x) = Ok true
  /\ forall m, In m (_items b) -> Interval.__and__ x m = Ok EMPTY_INTERVAL.
Proof.
  intros Ra Rb Hp Hs Hi Hx.
  assert (Rs : reachable s) by now apply (reach_sub a b).
  apply reachable_canonical in Ra, Rb, Rs.
  destruct (__contains___inside s x Rs Hi) as (cs & Hcs & Hins).
  destruct (__contains___inside a x Ra Hi) as (ca & Hca & Hina).
  rewrite Hx in Hcs. injection Hcs as <-.
  assert (Hin : inside (_items s) x) by now apply Hins.
  destruct (__sub___sound a b s Ra Rb Hp Hs) as [[_ Hsd] | [-> Hempty]].
  - destruct Hin as (p & Hp' & Hpx).
    rewrite Forall_forall in Hsd. destruct (Hsd p Hp') as [(m & Hm & Hmp) Hap].
    destruct x as [|xb xe]; [discriminate|].
    destruct p as [|pb pe]; [discriminate|].
    destruct m as [|mb me]; [discriminate|].
    apply contains_iff in Hpx, Hmp.
    split.
    + rewrite Hca. f_equal. apply Hina.
      exists (_InternalInterval mb me). split; [assumption|]. apply contains_iff. lia.
    + intros m' Hm'. rewrite Forall_forall in Hap. specialize (Hap m' Hm').
      destruct m' as [|mb' me']; [reflexivity|]. simpl in Hap.
      unfold Interval.__and__.
      destruct (Z.leb_spec xe mb'); [reflexivity|].
      destruct (Z.leb_spec me' xb); [reflexivity | lia].
  - split; [assumption|].
    destruct Hempty as [Ea | Eb].
    + rewrite Ea in Hin. destruct Hin as (p & [] & _).
    + rewrite Eb. intros m [].
Qed.

Lemma difference_within_first_outside_second_witness :
  IntervalSet.__contains__ S1 (inl (_InternalInterval 1 2)) = Ok true
  /\ forall m, In m (_items S2) ->
       Interval.__and__ (_InternalInterval 1 2) m = Ok EMPTY_INTERVAL.
Proof.
  assert (R1 : reachable S1).
  { apply (reach_init [_InternalInterval 10 15; _InternalInterval 1 5]);
      [repeat constructor; simpl; lia | reflexivity]. }
  assert (R2 : reachable S2).
  { apply (reach_init [_InternalInterval 3 12]);
      [repeat constructor; simpl; lia | reflexivity]. }
  apply (difference_within_first_outside_second S1 S2
           (IntervalSet.mk [_InternalInterval 1 3; _InternalInterval 12 15] None)
           (_InternalInterval 1 2) R1 R2);
    [repeat constructor; simpl; lia | reflexivity | reflexivity | reflexivity].
Defined.

(** ** What the union of two sets covers *)

Section UnionFacts.

Implicit Types x y : Interval.t.
Implicit Types l acc : list Interval.t.

(** The union of two valid intervals that overlap or touch covers what
    the two cover. *)
Lemma covers_union (b1 e1 b2 e2 z : Z) :
  b1 <= e1 -> b2 <= e2 -> b2 <= e1 -> b1 <= e2 ->
  (covers [_InternalInterval (Z.min b1 b2) (Z.max e1 e2)] z
   <-> covers [_InternalInterval b1 e1] z \/ covers [_InternalInterval b2 e2] z).
Proof. intros. rewrite !covers_one. lia. Qed.

Lemma covers_nil (z : Z) : ~ covers [] z.
Proof. intros (b & e & [] & _). Qed.

(** The loop of [__or__] on valid instances: what it returns covers
    nothing but what the output and the two sequences covered, and covers
    all that the output and the second sequence covered. *)
Lemma or_loop_covers (n : nat) : forall it1 i1 it2 i2 acc R,
  (length it1 + length it2 < n)%nat ->
  good i1 -> Forall good it1 -> good i2 -> Forall good it2 ->
  IntervalSet.or_loop it1 i1 it2 i2 acc = Ok R ->
  forall z : Z,
    (covers R z -> covers acc z \/ covers (i1 :: it1) z \/ covers (i2 :: it2) z)
    /\ (covers acc z \/ covers (i2 :: it2) z -> covers R z).
Proof.
  induction n as [|n IH]; intros it1 i1 it2 i2 acc R Hn G1 Hg1 G2 Hg2 HR z; [lia|].
  destruct i1 as [|b1 e1]; [contradiction|].
  destruct i2 as [|b2 e2]; [contradiction|].
  cbn [good] in G1, G2.
  rewrite or_loop_eq in HR.
  cbn [Interval.call_is_before_than Interval.is_before_than bind Interval.op_or] in HR.
  rewrite (covers_cons (_InternalInterval b1 e1) it1 z).
  rewrite (covers_cons (_InternalInterval b2 e2) it2 z).
  destruct (Z.ltb_spec e1 b2) as [Hlt | Hge]; cbn [bind] in HR.
  { destruct it1 as [|i1' it1'].
    - injection HR as <-. rewrite !covers_app.
      rewrite (covers_cons (_InternalInterval b2 e2) it2 z). tauto.
    - apply Forall_cons_iff in Hg1. destruct Hg1 as [G1' Hg1].
      destruct (IH it1' i1' it2 (_InternalInterval b2 e2) _ R
                  ltac:(simpl in Hn; lia) G1' Hg1 G2 Hg2 HR z) as [Hs Hc].
      rewrite covers_app in Hs, Hc.
      rewrite (covers_cons (_InternalInterval b2 e2) it2 z) in Hs, Hc.
      clear - Hs Hc. tauto. }
  destruct (Z.ltb_spec e2 b1) as [Hlt' | Hge']; cbn [bind] in HR.
  { destruct it2 as [|i2' it2'].
    - injection HR as <-. rewrite !covers_app.
      rewrite (covers_cons (_InternalInterval b1 e1) it1 z).
      pose proof (covers_nil z) as Hn0. clear - Hn0. tauto.
    - apply Forall_cons_iff in Hg2. destruct Hg2 as [G2' Hg2].
      destruct (IH it1 (_InternalInterval b1 e1) it2' i2' _ R
                  ltac:(simpl in Hn; lia) G1 Hg1 G2' Hg2 HR z) as [Hs Hc].
      rewrite covers_app in Hs, Hc.
      rewrite (covers_cons (_InternalInterval b1 e1) it1 z) in Hs.
      clear - Hs Hc. tauto. }
  rewrite __or___instances in HR by assumption. cbn [bind] in HR.
  pose proof (covers_union b1 e1 b2 e2 z G1 G2 Hge Hge') as Hu.
  destruct it1 as [|i1' it1'].
  { injection HR as <-. rewrite !covers_app. clear - Hu. tauto. }
  apply Forall_cons_iff in Hg1. destruct Hg1 as [G1' Hg1].
  destruct it2 as [|i2' it2'].
  { injection HR as <-. rewrite !covers_app.
    rewrite (covers_cons i1' it1' z).
    pose proof (covers_nil z) as Hn0. clear - Hu Hn0. tauto. }
  apply Forall_cons_iff in Hg2. destruct Hg2 as [G2' Hg2].
  destruct (IH it1' i1' it2' i2' _ R ltac:(simpl in Hn; lia) G1' Hg1 G2' Hg2 HR z)
    as [Hs Hc].
  rewrite covers_app in Hs, Hc. clear - Hs Hc Hu. tauto.
Qed.

(** The loops of [__or__] and [__and__] on a sequence against itself. *)
Lemma or_loop_self l : forall x acc,
  Forall good (x :: l) ->
  IntervalSet.or_loop l x l x acc = Ok (acc ++ x :: l).
Proof.
  induction l as [|y l IH]; intros x acc Hg;
    apply Forall_cons_iff in Hg; destruct Hg as [Hx Hg];
    destruct x as [|b e]; try contradiction; cbn [good] in Hx;
    rewrite or_loop_eq;
    cbn [Interval.call_is_before_than Interval.is_before_than bind Interval.op_or];
    (destruct (Z.ltb_spec e b); [lia|]); cbn [bind];
    rewrite __or___instances by lia; cbn [bind];
    rewrite Z.min_id, Z.max_id.
  - now rewrite app_nil_r.
  - rewrite IH by assumption. now rewrite <- app_assoc.
Qed.

Lemma and_loop_self l : forall x acc,
  Forall proper (x :: l) -> StronglySorted gap (x :: l) ->
  IntervalSet.and_loop l x l x acc = Ok (acc ++ x :: l).
Proof.
  induction l as [|y l IH]; intros x acc Hp Hs;
    apply Forall_cons_iff in Hp; destruct Hp as [Hx Hp];
    destruct x as [|b e]; try contradiction; cbn [proper] in Hx;
    rewrite and_loop_eq;
    cbn [Interval.call_is_before_than Interval.is_before_than bind
         Interval.op_and Interval.end_];
    (destruct (Z.ltb_spec e b); [lia|]); cbn [bind];
    rewrite __and___idem by assumption; cbn [bind Interval.__bool__];
    rewrite Z.ltb_irrefl.
  - reflexivity.
  - apply StronglySorted_inv in Hs. destruct Hs as [Hs Hg].
    assert (Hy := Forall_inv Hg). assert (Hpy := Forall_inv Hp).
    destruct y as [|yb ye]; [contradiction|]. cbn [gap proper] in Hy, Hpy.
    rewrite and_loop_eq.
    cbn [Interval.call_is_before_than Interval.is_before_than bind].
    destruct (Z.ltb_spec e yb); [|lia].
    rewrite IH by assumption. now rewrite <- app_assoc.
Qed.

End UnionFacts.

(** ** A set against itself *)

Section SelfFacts.

Implicit Types l mid : list Interval.t.

(** The loop of [__sub__] on a canonical sequence against itself: [other]
    lags behind [self] by the members [mid], and nothing is output. *)
Lemma sub_loop_self (n : nat) : forall mid b1 e1 it1 b2 e2 it2,
  _InternalInterval b2 e2 :: it2 = mid ++ _InternalInterval b1 e1 :: it1 ->
  canonical (mid ++ _InternalInterval b1 e1 :: it1) ->
  (IntervalSet.sub_measure (IntervalSet.mk_sub b1 e1 it1 b2 e2 it2 []) < n)%nat ->
  IntervalSet.sub_loop n (IntervalSet.mk_sub b1 e1 it1 b2 e2 it2 []) = Some (Ok []).
Proof.
  induction n as [|n IH]; intros mid b1 e1 it1 b2 e2 it2 E Hc Hn; [lia|].
  cbn [IntervalSet.sub_loop].
  assert (Hstep : forall s', IntervalSet.sub_turn (IntervalSet.mk_sub b1 e1 it1 b2 e2 it2 [])
                             = Next s' -> (IntervalSet.sub_measure s' < n)%nat).
  { intros s' Hs'. apply sub_turn_measure in Hs'. lia. }
  assert (Hgood : Forall good (mid ++ _InternalInterval b1 e1 :: it1))
    by now apply canonical_good.
  assert (G1 : b1 <= e1).
  { rewrite Forall_forall in Hgood.
    apply (Hgood (_InternalInterval b1 e1)). apply in_or_app. right. now left. }
  (* leaving the current member of [self] *)
  assert (Hnext1 :
    IntervalSet.sub_turn (IntervalSet.mk_sub b1 e1 it1 b2 e2 it2 [])
    = IntervalSet.next1 (IntervalSet.mk_sub b1 e1 it1 b2 e2 it2 []) [] ->
    match IntervalSet.sub_turn (IntervalSet.mk_sub b1 e1 it1 b2 e2 it2 []) with
    | Stop r => Some r
    | Next s' => IntervalSet.sub_loop n s'
    end = Some (Ok [])).
  { intros Ht. rewrite Ht in Hstep |- *. unfold IntervalSet.next1 in Hstep |- *.
    cbn [IntervalSet.it1 IntervalSet.b2 IntervalSet.e2 IntervalSet.it2] in Hstep |- *.
    destruct it1 as [|y l']; [reflexivity|].
    assert (Gy : good y).
    { rewrite Forall_forall in Hgood. apply Hgood. apply in_or_app. right. right. now left. }
    destruct y as [|yb ye]; [contradiction|]. cbn [IntervalSet.unpack] in Hstep |- *.
    apply (IH (mid ++ [_InternalInterval b1 e1])).
    - rewrite E. now rewrite <- app_assoc.
    - now rewrite <- app_assoc.
    - now apply Hstep. }
  destruct mid as [|m0 mid'].
  - injection E as -> -> ->. apply Hnext1.
    unfold IntervalSet.sub_turn. rewrite Z.geb_leb.
    destruct (Z.leb_spec e1 b1); [reflexivity|].
    destruct (Z.leb_spec e1 b1); [lia|].
    destruct (Z.ltb_spec b1 b1); [lia|]. cbn [andb].
    destruct (Z.leb_spec b1 b1); [|lia].
    destruct (Z.leb_spec b1 e1); [|lia].
    destruct (Z.ltb_spec e1 e1); [lia|]. cbn [andb].
    destruct (Z.leb_spec e1 e1); [reflexivity | lia].
  - injection E as <- E2.
    destruct (canonical_cons_inv _ _ Hc) as (G2 & Hc' & Hg).
    cbn [good] in G2.
    assert (Hgap : e2 < b1).
    { rewrite Forall_forall in Hg.
      apply (Hg (_InternalInterval b1 e1)). apply in_or_app. right. now left. }
    destruct (Z.leb_spec e1 b1) as [Hd | Hp].
    + apply Hnext1. unfold IntervalSet.sub_turn. rewrite Z.geb_leb.
      destruct (Z.leb_spec e1 b1); [reflexivity | lia].
    + assert (Ht : IntervalSet.sub_turn (IntervalSet.mk_sub b1 e1 it1 b2 e2 it2 [])
                   = IntervalSet.next2 (IntervalSet.mk_sub b1 e1 it1 b2 e2 it2 []) b1).
      { unfold IntervalSet.sub_turn. rewrite Z.geb_leb.
        destruct (Z.leb_spec e1 b1); [lia|].
        destruct (Z.leb_spec e1 b2); [lia|].
        destruct (Z.leb_spec e2 b1); [reflexivity | lia]. }
      rewrite Ht in Hstep |- *. unfold IntervalSet.next2 in Hstep |- *.
      cbn [IntervalSet.it1 IntervalSet.e1 IntervalSet.it2 IntervalSet.new_items]
        in Hstep |- *.
      rewrite E2 in Hstep |- *.
      destruct mid' as [|m1 mid''].
      * cbn [app IntervalSet.unpack] in Hstep |- *.
        apply (IH []); [reflexivity | assumption | now apply Hstep].
      * assert (G1' : good m1).
        { apply canonical_good in Hc'. now apply Forall_inv in Hc'. }
        destruct m1 as [|m1b m1e]; [contradiction|].
        cbn [app IntervalSet.unpack] in Hstep |- *.
        apply (IH (_InternalInterval m1b m1e :: mid''));
          [reflexivity | assumption | now apply Hstep].
Qed.

Lemma __or___self (a : IntervalSet.t) :
  canonical (_items a) ->
  exists s, IntervalSet.__or__ a a = Ok s /\ _items s = _items a.
Proof.
  intros Hc. unfold IntervalSet.__or__.
  destruct (_items a) as [|x l] eqn:Ea; [exists a; now split|].
  rewrite (or_loop_self l x [] (canonical_good _ Hc)). cbn [bind app].
  rewrite (__init___id _ Hc). eexists. split; reflexivity.
Qed.

Lemma __and___self (a : IntervalSet.t) :
  canonical (_items a) -> Forall proper (_items a) ->
  exists s, IntervalSet.__and__ a a = Ok s /\ _items s = _items a.
Proof.
  intros Hc Hp. unfold IntervalSet.__and__.
  destruct (_items a) as [|x l] eqn:Ea; [exists a; now split|].
  rewrite (and_loop_self l x [] Hp (proj2 (proj2 Hc))). cbn [bind app].
  rewrite (__init___id _ Hc). eexists. split; reflexivity.
Qed.

Lemma __sub___same_members (a b : IntervalSet.t) :
  canonical (_items a) -> _items b = _items a ->
  exists s, IntervalSet.__sub__ a b = Ok s /\ _items s = [].
Proof.
  intros Hc Eb. unfold IntervalSet.__sub__. rewrite Eb.
  destruct (_items a) as [|x l] eqn:Ea; [exists a; now split|].
  assert (Gx : good x) by (apply canonical_good in Hc; now apply Forall_inv in Hc).
  destruct x as [|b1 e1]; [contradiction|]. cbn [IntervalSet.unpack bind fst snd].
  rewrite (sub_loop_self (S (IntervalSet.sub_measure (IntervalSet.mk_sub b1 e1 l b1 e1 l [])))
             [] b1 e1 l b1 e1 l eq_refl Hc (Nat.lt_succ_diag_r _)).
  cbn [bind]. exists (IntervalSet.mk [] None). split; reflexivity.
Qed.

Lemma __eq___same_members (a b : IntervalSet.t) :
  coherent a -> coherent b -> _items a = _items b ->
  fst (IntervalSet.__eq__ a b) = true.
Proof.
  intros Ha Hb E.
  destruct (__hash___coherent a Ha) as (Ea & _ & _).
  destruct (__hash___coherent b Hb) as (Eb & _ & _).
  unfold IntervalSet.__eq__.
  destruct (IntervalSet.__hash__ a) as [h1 a'], (IntervalSet.__hash__ b) as [h2 b'].
  simpl in *. subst. rewrite E. apply Z.eqb_refl.
Qed.

End SelfFacts.

(** A reachable set against itself: [A | A] has the members of [A] and
    [A - A] is empty; when the members of [A] have their begin below their
    end, [A & A] has the members of [A], [A ^ A] is empty, and [A in A] is
    true. *)
Theorem operations_on_self (a : IntervalSet.t) :
  reachable a ->
  (exists s, IntervalSet.__or__ a a = Ok s /\ _items s = _items a)
  /\ (exists s, IntervalSet.__sub__ a a = Ok s /\ _items s = [])
  /\ (Forall proper (_items a) ->
      (exists s, IntervalSet.__and__ a a = Ok s /\ _items s = _items a)
      /\ (exists s, IntervalSet.__xor__ a a = Ok s /\ _items s = [])
      /\ IntervalSet.__contains__ a (inr a) = Ok true).
Proof.
  intros Ra. assert (Hc := reachable_canonical a Ra).
  split; [now apply __or___self|].
  split; [now apply __sub___same_members|].
  intros Hp.
  destruct (__and___self a Hc Hp) as (i & Hi & Ei).
  destruct (__or___self a Hc) as (u & Hu & Eu).
  split; [eauto|]. split.
  - unfold IntervalSet.__xor__. rewrite Hu, Hi. cbn [bind].
    apply __sub___same_members; [now rewrite Eu | congruence].
  - unfold IntervalSet.__contains__. rewrite Hi. cbn [bind]. f_equal.
    assert (Ri : reachable i) by now apply (reach_and a a).
    now apply __eq___same_members; try apply reachable_coherent.
Qed.

Lemma operations_on_self_witness :
  reachable S1 /\ Forall proper (_items S1)
  /\ (exists s, IntervalSet.__xor__ S1 S1 = Ok s /\ _items s = [])
  /\ IntervalSet.__contains__ S1 (inr S1) = Ok true.
Proof.
  assert (R1 : reachable S1).
  { apply (reach_init [_InternalInterval 10 15; _InternalInterval 1 5]);
      [repeat constructor; simpl; lia | reflexivity]. }
  assert (P1 : Forall proper (_items S1)) by (repeat constructor; simpl; lia).
  destruct (operations_on_self S1 R1) as (_ & _ & H).
  destruct (H P1) as (_ & Hx & Hc).
  split; [exact R1|]. split; [exact P1|]. split; [exact Hx | exact Hc].
Defined.

(** The empty set is contained in every reachable set. *)
Theorem empty_set_is_contained (a e : IntervalSet.t) :
  reachable a -> reachable e -> _items e = [] ->
  IntervalSet.__contains__ a (inr e) = Ok true.
Proof.
  intros Ra Re He. unfold IntervalSet.__contains__, IntervalSet.__and__. rewrite He.
  destruct (_items a) as [|x l] eqn:Ea; cbn [bind]; f_equal.
  - apply __eq___same_members; try now apply reachable_coherent. congruence.
  - apply __eq___same_members; try now apply reachable_coherent. reflexivity.
Qed.

Lemma empty_set_is_contained_witness :
  reachable S1 /\ reachable (IntervalSet.mk [] None)
  /\ IntervalSet.__contains__ S1 (inr (IntervalSet.mk [] None)) = Ok true.
Proof.
  assert (R1 : reachable S1).
  { apply (reach_init [_InternalInterval 10 15; _InternalInterval 1 5]);
      [repeat constructor; simpl; lia | reflexivity]. }
  assert (R0 : reachable (IntervalSet.mk [] None)).
  { apply (reach_init []); [constructor | reflexivity]. }
  split; [exact R1|]. split; [exact R0|].
  exact (empty_set_is_contained S1 (IntervalSet.mk [] None) R1 R0 eq_refl).
Defined.

(** The union of two reachable sets covers nothing but what the two
    cover, and covers all that the second operand covers. *)
Theorem union_covers_second_operand (a b s : IntervalSet.t) (z : Z) :
  reachable a -> reachable b -> IntervalSet.__or__ a b = Ok s ->
  (covers (_items s) z -> covers (_items a) z \/ covers (_items b) z)
  /\ (covers (_items b) z -> covers (_items s) z).
Proof.
  intros Ra Rb. apply reachable_canonical in Ra, Rb.
  apply canonical_good in Ra, Rb. unfold IntervalSet.__or__.
  destruct (_items a) as [|i1 it1] eqn:Ea.
  { intros [= <-]. tauto. }
  destruct (_items b) as [|i2 it2] eqn:Eb.
  { intros [= <-]. rewrite Ea. pose proof (covers_nil z). tauto. }
  apply Forall_cons_iff in Ra, Rb. destruct Ra as [G1 Hg1], Rb as [G2 Hg2].
  destruct (or_loop_good it1 i1 it2 i2 [] G1 Hg1 G2 Hg2 (Forall_nil _)) as (R & HR & HgR).
  rewrite HR. cbn [bind]. unfold IntervalSet.__init__.
  destruct (IntervalSet._fill_items R) as [l| |] eqn:Hl; cbn [bind]; try discriminate.
  intros [= <-]. cbn [_items].
  pose proof (_fill_items_covers R l (proj2 (proj1 (Forall_good R) HgR)) Hl z) as Hn.
  destruct (or_loop_covers (S (length it1 + length it2)) it1 i1 it2 i2 [] R
              ltac:(lia) G1 Hg1 G2 Hg2 HR z) as [Hs Hc].
  pose proof (covers_nil z) as Hn0. clear - Hn Hs Hc Hn0. tauto.
Qed.

Lemma union_covers_second_operand_witness :
  reachable S1 /\ reachable S2
  /\ (covers (_items S2) 7 -> covers [_InternalInterval 1 15] 7).
Proof.
  assert (R1 : reachable S1).
  { apply (reach_init [_InternalInterval 10 15; _InternalInterval 1 5]);
      [repeat constructor; simpl; lia | reflexivity]. }
  assert (R2 : reachable S2).
  { apply (reach_init [_InternalInterval 3 12]);
      [repeat constructor; simpl; lia | reflexivity]. }
  split; [exact R1|]. split; [exact R2|].
  exact (proj2 (union_covers_second_operand S1 S2
                  (IntervalSet.mk [_InternalInterval 1 15] None) 7 R1 R2 eq_refl)).
Defined.

(** The union can lose members of its first operand: the union of a set
    of two members or more with the set of its first member alone has the
    first two members and nothing else. *)
Theorem union_with_first_member_keeps_two
    (x y : Interval.t) (l : list Interval.t) (h h' : option Z) :
  canonical (x :: y :: l) ->
  IntervalSet.__or__ (IntervalSet.mk (x :: y :: l) h) (IntervalSet.mk [x] h')
  = Ok (IntervalSet.mk [x; y] None).
Proof.
  intros Hc. unfold IntervalSet.__or__. cbn [_items].
  assert (Hg := canonical_good _ Hc).
  assert (Gx := Forall_inv Hg).
  destruct x as [|b e]; [contradiction|]. cbn [good] in Gx.
  rewrite or_loop_eq.
  cbn [Interval.call_is_before_than Interval.is_before_than bind Interval.op_or].
  destruct (Z.ltb_spec e b); [lia|]. cbn [bind].
  rewrite __or___instances by lia. cbn [bind app].
  rewrite Z.min_id, Z.max_id.
  apply __init___id.
  destruct Hc as (Hi & Hv & Hs).
  apply Forall_cons_iff in Hi, Hv. destruct Hi as [Hi1 Hi], Hv as [Hv1 Hv].
  apply Forall_cons_iff in Hi, Hv. destruct Hi as [Hi2 Hi], Hv as [Hv2 Hv].
  apply StronglySorted_inv in Hs. destruct Hs as [Hs Hg1].
  apply Forall_inv in Hg1.
  repeat split; repeat constructor; assumption.
Qed.

Lemma union_with_first_member_keeps_two_witness :
  canonical [_InternalInterval 1 2; _InternalInterval 5 6; _InternalInterval 8 9]
  /\ IntervalSet.__or__
       (IntervalSet.mk [_InternalInterval 1 2; _InternalInterval 5 6; _InternalInterval 8 9]
          None)
       (IntervalSet.mk [_InternalInterval 1 2] None)
     = Ok (IntervalSet.mk [_InternalInterval 1 2; _InternalInterval 5 6] None).
Proof.
  assert (C : canonical
                [_InternalInterval 1 2; _InternalInterval 5 6; _InternalInterval 8 9]).
  { repeat split; repeat constructor; simpl; lia. }
  split; [exact C|].
  exact (union_with_first_member_keeps_two _ _ _ None None C).
Defined.

(** ** The outcomes of the constructor; the intersection commutes *)

Section Extensionality.

Implicit Types x m : Interval.t.
Implicit Types l : list Interval.t.

(** On intervals with begin below end the loop of [__and__] outputs such
    intervals only. *)
Lemma and_loop_proper it1 : forall i1 it2 i2 acc,
  proper i1 -> Forall proper it1 -> proper i2 -> Forall proper it2 ->
  Forall proper acc ->
  exists R, IntervalSet.and_loop it1 i1 it2 i2 acc = Ok R /\ Forall proper R.
Proof.
  induction it1 as [|i1' it1 IH1]; intros i1 it2; induction it2 as [|i2' it2 IH2];
    intros i2 acc H1 Hit1 H2 Hit2 Hacc;
    destruct i1 as [|b1 e1]; try contradiction;
    destruct i2 as [|b2 e2]; try contradiction;
    cbn [proper] in H1, H2;
    rewrite and_loop_eq;
    cbn [Interval.call_is_before_than Interval.is_before_than bind
         Interval.op_and Interval.end_];
    rewrite __and___instances by lia; cbn [bind];
    try (apply Forall_cons_iff in Hit1; destruct Hit1 as [H1' Hit1]);
    try (apply Forall_cons_iff in Hit2; destruct Hit2 as [H2' Hit2]);
    destruct (Z.ltb_spec e1 b2); cbn [bind]; eauto;
    destruct (Z.ltb_spec e2 b1); cbn [bind]; eauto;
    (assert (Hacc' : Forall proper
       (if Interval.__bool__
             (if (e1 <=? b2) || (e2 <=? b1) then EMPTY_INTERVAL
              else _InternalInterval (Z.max b1 b2) (Z.min e1 e2))
        then acc ++ [if (e1 <=? b2) || (e2 <=? b1) then EMPTY_INTERVAL
                     else _InternalInterval (Z.max b1 b2) (Z.min e1 e2)]
        else acc))
      by (destruct (Z.leb_spec e1 b2), (Z.leb_spec e2 b1); simpl; try assumption;
          apply Forall_snoc; [assumption | simpl; lia]));
    destruct (Z.ltb_spec e1 e2); eauto.
Qed.

Lemma canonical_NoDup l : canonical l -> NoDup l.
Proof.
  intros (_ & Hv & Hs). induction Hs as [|x l Hs IH Hx]; [constructor|].
  apply Forall_cons_iff in Hv. destruct Hv as [Hvx Hv].
  constructor; [|now apply IH].
  intros Hin. rewrite Forall_forall in Hx. specialize (Hx x Hin).
  destruct x; simpl in *; [contradiction | lia].
Qed.

(** Two canonical sequences of intervals with begin below end that hold
    the same intervals are one sequence. *)
Lemma canonical_ext l l' :
  canonical l -> canonical l' -> Forall proper l -> Forall proper l' ->
  (forall x, proper x -> (inside l x <-> inside l' x)) ->
  l = l'.
Proof.
  intros Hc Hc' Hp Hp' Hext.
  assert (Hsub : forall k k', canonical k -> Forall proper k -> Forall proper k' ->
            (forall x, proper x -> (inside k x <-> inside k' x)) ->
            forall m, In m k -> In m k').
  { intros k k' Hk Hpk Hpk' He m Hm.
    rewrite Forall_forall in Hpk, Hpk'.
    assert (Pm := Hpk m Hm).
    assert (Im : inside k m).
    { exists m. split; [assumption|].
      destruct m as [|mb me]; [contradiction|]. apply contains_iff. lia. }
    apply (He m Pm) in Im. destruct Im as (m' & Hm' & Hmm').
    assert (Pm' := Hpk' m' Hm').
    assert (Im' : inside k' m').
    { exists m'. split; [assumption|].
      destruct m' as [|mb me]; [contradiction|]. apply contains_iff. lia. }
    apply (He m' Pm') in Im'. destruct Im' as (m'' & Hm'' & Hmm'').
    destruct Hk as (_ & _ & Hs).
    destruct m as [|mb me], m' as [|mb' me'], m'' as [|mb'' me''];
      try contradiction; try discriminate.
    apply contains_iff in Hmm', Hmm''. simpl in Pm, Pm'.
    destruct (separated_members _ _ _ Hs Hm Hm'') as [E | [G | G]];
      [| simpl in G; lia | simpl in G; lia].
    injection E as <- <-.
    assert (mb' = mb) by lia. assert (me' = me) by lia. now subst. }
  apply sorted_unique; try now apply canonical_sorted.
  apply NoDup_Permutation; try now apply canonical_NoDup.
  intros m. split.
  - now apply (Hsub l l').
  - apply (Hsub l' l); try assumption. intros x Hx. symmetry. now apply Hext.
Qed.

Lemma __and___proper (a b s : IntervalSet.t) :
  canonical (_items a) -> canonical (_items b) ->
  Forall proper (_items a) -> Forall proper (_items b) ->
  IntervalSet.__and__ a b = Ok s ->
  canonical (_items s) /\ Forall proper (_items s).
Proof.
  intros Ha Hb Pa Pb. unfold IntervalSet.__and__.
  destruct (_items a) as [|i1 it1] eqn:Ea.
  { intros [= <-]. rewrite Ea. split; [apply canonical_nil | constructor]. }
  destruct (_items b) as [|i2 it2] eqn:Eb.
  { intros [= <-]. rewrite Eb. split; [apply canonical_nil | constructor]. }
  apply Forall_cons_iff in Pa, Pb. destruct Pa as [P1 Hp1], Pb as [P2 Hp2].
  destruct (and_loop_proper it1 i1 it2 i2 [] P1 Hp1 P2 Hp2 (Forall_nil _))
    as (R & HR & HpR).
  rewrite HR. cbn [bind].
  destruct (and_loop_exact (S (length it1 + length it2)) it1 i1 it2 i2 [] R)
    as [HcR _]; try assumption; [lia | apply canonical_nil | constructor |].
  rewrite (__init___id R HcR). intros [= <-]. cbn [_items]. now split.
Qed.

End Extensionality.

(** The outcomes of the constructor on values of the factory: it raises
    [TypeError] exactly when the collection has two values or more and
    holds the empty interval; in every other case it returns a set with an
    empty hash cache that meets the three invariants. *)
Theorem constructor_outcomes (items : list Interval.t) :
  Forall valid items ->
  (IntervalSet.__init__ items = Raise TypeError
   <-> (2 <= length items)%nat /\ In EMPTY_INTERVAL items)
  /\ ((length items < 2)%nat \/ ~ In EMPTY_INTERVAL items ->
      exists s, IntervalSet.__init__ items = Ok s /\ _hash s = None
                /\ increasing (_items s) /\ separated (_items s)
                /\ no_empty (_items s)).
Proof.
  intros Hv. unfold IntervalSet.__init__.
  destruct (_fill_items_outcome items Hv) as [(l & Hl & Hc) | (Hr & Hlen & Hin)].
  - rewrite Hl. cbn [bind]. split.
    + split; [discriminate|]. intros [Hlen Hin].
      assert (Hr : IntervalSet.__init__ items = Raise TypeError)
        by now apply __init___with_empty.
      unfold IntervalSet.__init__ in Hr. rewrite Hl in Hr. discriminate.
    + intros _. eexists. split; [reflexivity|]. split; [reflexivity|].
      now apply canonical_invariants.
  - rewrite Hr. cbn [bind]. split.
    + split; [now intros _ | reflexivity].
    + intros [H | H]; [lia | contradiction].
Qed.

Lemma constructor_outcomes_witness :
  Forall valid [EMPTY_INTERVAL; _InternalInterval 1 2]
  /\ IntervalSet.__init__ [EMPTY_INTERVAL; _InternalInterval 1 2] = Raise TypeError.
Proof.
  assert (V : Forall valid [EMPTY_INTERVAL; _InternalInterval 1 2])
    by (repeat constructor; simpl; lia).
  split; [exact V|].
  apply (proj1 (constructor_outcomes _ V)). split; [simpl; lia | now left].
Defined.

(** The intersection of two reachable sets whose members have their begin
    below their end does not depend on the order of the operands: [A & B]
    and [B & A] have the same members. *)
Theorem intersection_commutes (a b s s' : IntervalSet.t) :
  reachable a -> reachable b ->
  Forall proper (_items a) -> Forall proper (_items b) ->
  IntervalSet.__and__ a b = Ok s -> IntervalSet.__and__ b a = Ok s' ->
  _items s = _items s'.
Proof.
  intros Ra Rb Pa Pb Hs Hs'. apply reachable_canonical in Ra, Rb.
  destruct (__and___proper a b s Ra Rb Pa Pb Hs) as [Hc Hp].
  destruct (__and___proper b a s' Rb Ra Pb Pa Hs') as [Hc' Hp'].
  apply canonical_ext; try assumption.
  intros x Hx.
  rewrite (__and___inside a b s Ra Rb Hs x Hx).
  rewrite (__and___inside b a s' Rb Ra Hs' x Hx). tauto.
Qed.

Lemma intersection_commutes_witness :
  reachable S1 /\ reachable S2
  /\ Forall proper (_items S1) /\ Forall proper (_items S2)
  /\ _items (IntervalSet.mk [_InternalInterval 3 5; _InternalInterval 10 12] None)
     = [_InternalInterval 3 5; _InternalInterval 10 12].
Proof.
  assert (R1 : reachable S1).
  { apply (reach_init [_InternalInterval 10 15; _InternalInterval 1 5]);
      [repeat constructor; simpl; lia | reflexivity]. }
  assert (R2 : reachable S2).
  { apply (reach_init [_InternalInterval 3 12]);
      [repeat constructor; simpl; lia | reflexivity]. }
  assert (P1 : Forall proper (_items S1)) by (repeat constructor; simpl; lia).
  assert (P2 : Forall proper (_items S2)) by (repeat constructor; simpl; lia).
  split; [exact R1|]. split; [exact R2|]. split; [exact P1|]. split; [exact P2|].
  exact (intersection_commutes S1 S2
           (IntervalSet.mk [_InternalInterval 3 5; _InternalInterval 10 12] None)
           (IntervalSet.mk [_InternalInterval 3 5; _InternalInterval 10 12] None)
           R1 R2 P1 P2 eq_refl eq_refl).
Defined.

Lemma before_is_disjoint_witness :
  Interval.is_before_than (_InternalInterval 1 2) (_InternalInterval 5 6) = true
  /\ Interval.__and__ (_InternalInterval 1 2) (_InternalInterval 5 6) = Ok EMPTY_INTERVAL
  /\ Interval.__or__ (_InternalInterval 1 2) (_InternalInterval 5 6) = Raise ValueError.
Proof.
  split; [reflexivity|].
  exact (proj1 (before_is_disjoint (_InternalInterval 1 2) (_InternalInterval 5 6)) eq_refl).
Defined.
